(** * mongoose-path-tree: the materialized-ancestry plugin of [lib/tree.js]

    A shallow embedding of the plugin: the pre-save and pre-remove hooks, the
    query helpers ([getChildren], [getAncestors]) and the tree assembler of
    [getChildrenTree], over a collection modelled as the list of its
    documents.

    Conventions of the embedding.
    - Identifiers are strings (the text an ObjectId prints as).
    - The plugin writes an ancestry or an identifier as it is into a regular
      expression.  [Store.regex_test] gives the meaning of such a pattern
      for a text that stands for itself in a regular expression, as the
      hexadecimal text of an ObjectId and the separator [/] do
      ([regex_inert]); the general statements that rest on which documents
      a pattern selects carry that condition.
    - A field that a document does not carry ([undefined] in JavaScript) is
      [None]; JavaScript truthiness and string conversion are written out
      ([truthy], [js_str]).
    - The separator is one character.
    - The store calls are synchronous functions on the list of documents.  A
      store call can fail: which calls fail is given by a [faults] oracle.
      [findOne], [update] and [remove] hand their error to their callback.
      [find] on the collection always hands a cursor to its callback; a
      failing query shows when the cursor is streamed.
    - [streamWorker] hands every document of the stream to the worker, in
      cursor order, also after an error, and calls its completion callback
      once, with the first error; an exception thrown by the worker is
      caught and counts as its error.  The cursor is the snapshot taken by
      [find]. *)

From Stdlib Require Import String Ascii List ZArith Bool Lia.
Import ListNotations.

Local Open Scope list_scope.
Local Open Scope string_scope.

(** ** JavaScript values used by the plugin *)

Module Js.

(** [s ? ... : ...] on a string-valued field: [undefined] and [''] are falsy. *)
Definition truthy (o : option string) : bool :=
  match o with
  | None => false
  | Some s => negb (s =? "")
  end.

(** String conversion in a concatenation: ['^' + undefined] is ['^undefined']. *)
Definition js_str (o : option string) : string :=
  match o with
  | None => "undefined"
  | Some s => s
  end.

Definition chr (c : ascii) : string := String c EmptyString.

(** [s.split(sep)] for a one-character separator. *)
Fixpoint split (sep : ascii) (s : string) : list string :=
  match s with
  | EmptyString => [EmptyString]
  | String c s' =>
      if Ascii.eqb c sep then EmptyString :: split sep s'
      else match split sep s' with
           | [] => [chr c]
           | h :: t => String c h :: t
           end
  end.

(** [s.substr(n)]: the text from position [n] to the end. *)
Definition substr (n : nat) (s : string) : string :=
  substring n (String.length s - n) s.

(** [re.test(s)] for an unanchored literal [pat]: [pat] occurs in [s]. *)
Fixpoint includes (pat s : string) : bool :=
  if prefix pat s then true
  else match s with
       | EmptyString => false
       | String _ s' => includes pat s'
       end.

(** [s.replace(pat, '')] with a string pattern: the first occurrence goes. *)
Fixpoint replace_first (pat s : string) : string :=
  if prefix pat s then substr (String.length pat) s
  else match s with
       | EmptyString => EmptyString
       | String c s' => String c (replace_first pat s')
       end.

(** [arr.pop()] seen as the array left behind. *)
Definition pop {A} (l : list A) : list A := removelast l.

End Js.

(** ** Documents and options *)

Record node : Type := Node {
  _id : string;
  parent : option string;
  ancestry : option string
}.

Definition set_ancestry (a : option string) (d : node) : node :=
  Node (_id d) (parent d) a.

Definition set_parent (p : option string) (d : node) : node :=
  Node (_id d) p (ancestry d).

(** The [options] argument of [tree(schema, options)]; an absent entry is [None]. *)
Record options : Type := Options {
  opt_ancestrySeparator : option ascii;
  opt_wrapChildrenTree : bool;
  opt_onDelete : option string;
  opt_numWorkers : option nat
}.

Definition defaults : options := Options None false None None.

Definition ancestrySeparator (o : options) : ascii :=
  match opt_ancestrySeparator o with Some c => c | None => "/"%char end.

Definition onDelete (o : options) : string :=
  match opt_onDelete o with
  | Some s => if s =? "" then "DELETE" else s
  | None => "DELETE"
  end.

Definition numWorkers (o : options) : nat :=
  match opt_numWorkers o with
  | Some (S n) => S n
  | _ => 5
  end.

(** [virtualPropLevel] and the [getLevel] closure of [getChildrenTree]. *)
Definition getLevel (o : options) (anc : option string) : nat :=
  if Js.truthy anc
  then List.length (Js.split (ancestrySeparator o) (Js.js_str anc))
  else 0.

Definition level (o : options) (d : node) : nat := getLevel o (ancestry d).

(** The path of a document as the pre-save hook builds it for its children:
    [doc.ancestry + sep + doc._id], or [doc._id] for a document without
    ancestry. *)
Definition pathOf (o : options) (d : node) : string :=
  if Js.truthy (ancestry d)
  then Js.js_str (ancestry d) ++ Js.chr (ancestrySeparator o) ++ _id d
  else _id d.

(** ** The store *)

Module Store.

(** The store calls the hooks make, as the fault oracle sees them. *)
Inductive call : Type :=
| FindOne (id : option string)
| FindRegex (anchored : bool) (lit : string)
| FindByParent (id : string)
| Update (id : string)
| Remove (lit : string)
| Find.

(** Which calls fail, and with which error. *)
Definition faults : Type := call -> option string.

Definition reliable : faults := fun _ => None.

Definition collection : Type := list node.

(** [{ $regex: '^' + lit + '[sep]' }] (anchored) or
    [{ $regex: lit + '[sep]' }] on a string field, for a [lit] and a [sep]
    that stand for themselves in a regular expression: the field begins
    with, or contains, [lit] followed by [sep].  A document without the
    field does not match. *)
Definition regex_test (anchored : bool) (lit : string) (sep : ascii)
    (field : option string) : bool :=
  match field with
  | None => false
  | Some s =>
      if anchored then prefix (lit ++ Js.chr sep) s
      else Js.includes (lit ++ Js.chr sep) s
  end.

Definition id_eqb (a b : option string) : bool :=
  match a, b with
  | Some x, Some y => x =? y
  | None, None => true
  | _, _ => false
  end.

(** [findOne({ _id: id }, cb)]: the error, or the first document with that
    id, or [null]. *)
Definition findOne (F : faults) (db : collection) (id : option string)
    : string + option node :=
  match F (FindOne id) with
  | Some err => inl err
  | None => inr (List.find (fun d => id_eqb (Some (_id d)) id) db)
  end.

(** [find({ ancestry: { $regex: ... } }, cb)] hands a cursor to [cb], with
    no error; the result is what the stream of that cursor delivers: the
    error of a failing query, or the documents. *)
Definition findRegex (F : faults) (db : collection) (anchored : bool)
    (lit : string) (sep : ascii) : string + list node :=
  match F (FindRegex anchored lit) with
  | Some err => inl err
  | None => inr (filter (fun d => regex_test anchored lit sep (ancestry d)) db)
  end.

(** [find({ parent: id }, cb)], in the same way. *)
Definition findByParent (F : faults) (db : collection) (id : string)
    : string + list node :=
  match F (FindByParent id) with
  | Some err => inl err
  | None => inr (filter (fun d => id_eqb (parent d) (Some id)) db)
  end.

(** [update({ _id: id }, { $set: ... }, cb)]: the first document with that
    id is changed by [f]. *)
Fixpoint update_first (id : string) (f : node -> node) (db : collection)
    : collection :=
  match db with
  | [] => []
  | d :: db' =>
      if _id d =? id then f d :: db' else d :: update_first id f db'
  end.

Definition update (F : faults) (db : collection) (id : string)
    (f : node -> node) : string + collection :=
  match F (Update id) with
  | Some err => inl err
  | None => inr (update_first id f db)
  end.

(** [remove({ ancestry: { $regex: '^' + lit + '[sep]' } }, cb)]. *)
Definition remove (F : faults) (db : collection) (lit : string) (sep : ascii)
    : string + collection :=
  match F (Remove lit) with
  | Some err => inl err
  | None =>
      inr (filter (fun d => negb (regex_test true lit sep (ancestry d))) db)
  end.

End Store.

(** ** How a hook ends *)

(** A hook ends by calling [next()], by calling [next(err)], or by an
    exception thrown inside a store callback, in which case [next] is never
    called. *)
Inductive completion : Type :=
| Done
| Failed (err : string)
| Uncaught (exn : string).

Definition next_calls (c : completion) : nat :=
  match c with
  | Done | Failed _ => 1
  | Uncaught _ => 0
  end.

Definition TypeError : string := "TypeError".

(** What [done] receives when a run of [work] ended with [c] and the runs
    on the later documents with [c']: the first error; an exception thrown
    by [work] is caught and handed on as an error. *)
Definition first_error (c c' : completion) : completion :=
  match c with
  | Done => c'
  | Failed err => Failed err
  | Uncaught exn => Failed exn
  end.

(** [streamWorker(stream, numWorkers, work, done)] on a stream that delivers
    [items]: [work] is applied to every document, also after an error;
    [done] is called once, with the first error, or with nothing. *)
Fixpoint streamWorker (items : list node)
    (work : node -> Store.collection -> completion * Store.collection)
    (db : Store.collection) : completion * Store.collection :=
  match items with
  | [] => (Done, db)
  | doc :: rest =>
      let '(c, db1) := work doc db in
      let '(c', db2) := streamWorker rest work db1 in
      (first_error c c', db2)
  end.

(** [streamWorker(cursor.stream(), numWorkers, work, done)]: a stream that
    fails hands its error to [done]. *)
Definition streamCursor (cursor : string + list node)
    (work : node -> Store.collection -> completion * Store.collection)
    (db : Store.collection) : completion * Store.collection :=
  match cursor with
  | inl err => (Failed err, db)
  | inr items => streamWorker items work db
  end.

Definition store_step (r : string + Store.collection) (db : Store.collection)
    : completion * Store.collection :=
  match r with
  | inl err => (Failed err, db)
  | inr db' => (Done, db')
  end.

(** ** Pre-save hook *)

Section Hooks.

Variable o : options.
Variable F : Store.faults.

Let sep : ascii := ancestrySeparator o.

(** [preSave]: [self] is the document being saved, [isNew] and
    [isParentChange] are [this.isNew] and [this.isModified('parent')].
    The result is how the hook ended, the document as the hook left it, and
    the collection.  The callback of [find] is handed a cursor and no error,
    so its test of [err] never fires; a failing query ends the stream of the
    cursor, and [streamCursor] hands the error to [next]. *)
Definition preSave (db : Store.collection) (self : node)
    (isNew isParentChange : bool)
    : completion * node * Store.collection :=
  if isNew || isParentChange then
    if negb (Js.truthy (parent self)) then (Done, self, db)
    else
      match Store.findOne F db (parent self) with
      | inl err => (Failed err, self, db)
      | inr None => (Uncaught TypeError, self, db)
      | inr (Some doc) =>
          let previousPath := ancestry self in
          let self' :=
            if Js.truthy (ancestry doc)
            then set_ancestry
                   (Some (Js.js_str (ancestry doc) ++ Js.chr sep ++ _id doc))
                   self
            else set_ancestry (Some (_id doc)) self in
          if isParentChange then
            let cursor :=
              Store.findRegex F db true (Js.js_str previousPath) sep in
            let '(c, db') :=
              streamCursor cursor
                (fun doc db =>
                   match previousPath with
                   | None => (Uncaught TypeError, db)
                   | Some prev =>
                       let newPath :=
                         Js.js_str (ancestry self')
                         ++ Js.substr (String.length prev)
                              (Js.js_str (ancestry doc)) in
                       store_step
                         (Store.update F db (_id doc)
                            (set_ancestry (Some newPath)))
                         db
                   end)
                db in
            (c, self', db')
          else (Done, self', db)
      end
  else (Done, self, db).

(** The write that follows a hook that called [next()]: the document
    replaces the stored one with its id, or is inserted. *)
Definition write (self : node) (db : Store.collection) : Store.collection :=
  if existsb (fun d => _id d =? _id self) db
  then Store.update_first (_id self) (fun _ => self) db
  else (db ++ [self])%list.

(** [doc.save(cb)]: the hook, then the write unless the hook failed. *)
Definition save (db : Store.collection) (self : node)
    (isNew isParentChange : bool)
    : completion * node * Store.collection :=
  match preSave db self isNew isParentChange with
  | (Done, self', db') => (Done, self', write self' db')
  | r => r
  end.

(** ** Pre-remove hook *)

(** [preRemove]: the result is how the hook ended and the collection.  Both
    callbacks of [find] are handed a cursor and no error; the second stage
    is entered from [streamOnClose] when the first ended without error. *)
Definition preRemove (db : Store.collection) (self : node)
    : completion * Store.collection :=
  if negb (Js.truthy (ancestry self)) then (Done, db)
  else if onDelete o =? "DELETE" then
    store_step (Store.remove F db (Js.js_str (ancestry self)) sep) db
  else
    let newParent := parent self in
    let previousParent := _id self in
    let cursor := Store.findByParent F db previousParent in
    match
      streamCursor cursor
        (fun doc db =>
           store_step
             (Store.update F db (_id doc) (set_parent newParent)) db)
        db
    with
    | (Done, db1) =>
        let subStream :=
          Store.findRegex F db1 false previousParent sep in
        streamCursor subStream
          (fun doc db =>
             let newPath :=
               Js.replace_first (previousParent ++ Js.chr sep)
                 (Js.js_str (ancestry doc)) in
             store_step
               (Store.update F db (_id doc) (set_ancestry (Some newPath)))
               db)
          db1
    | r => r
    end.

(** [doc.remove(cb)]: the hook, then the document itself is deleted unless
    the hook failed. *)
Definition remove (db : Store.collection) (self : node)
    : completion * Store.collection :=
  match preRemove db self with
  | (Done, db') => (Done, filter (fun d => negb (_id d =? _id self)) db')
  | r => r
  end.

End Hooks.

(** ** Filters *)

(** The clauses the plugin writes, and that a caller may write as well. *)
Inductive clause : Type :=
| Equals (v : option string)
| Regex (anchored : bool) (lit : string)
| InIds (ids : list string).

(** A JavaScript object used as a map from keys to values, in key order. *)
Definition obj (V : Type) : Type := list (string * V).

Fixpoint obj_get {V} (k : string) (ob : obj V) : option V :=
  match ob with
  | [] => None
  | (k', c) :: ob' => if k' =? k then Some c else obj_get k ob'
  end.

(** [ob[k] = c]: the value of an existing key is replaced where it stands, a
    new key goes last. *)
Fixpoint obj_set {V} (k : string) (c : V) (ob : obj V) : obj V :=
  match ob with
  | [] => [(k, c)]
  | (k', c') :: ob' =>
      if k' =? k then (k', c) :: ob' else (k', c') :: obj_set k c ob'
  end.

(** [delete ob[k]]. *)
Definition obj_delete {V} (k : string) (ob : obj V) : obj V :=
  filter (fun kc => negb (fst kc =? k)) ob.

Definition object : Type := obj clause.

(** A [filters] argument: its [$query] entry, when it has one, is an object;
    [own] holds the other keys. *)
Record filters : Type := Filters {
  query : option object;
  own : object
}.

Definition no_filters : filters := Filters None [].

Definition field (k : string) (d : node) : option string :=
  if k =? "_id" then Some (_id d)
  else if k =? "parent" then parent d
  else if k =? "ancestry" then ancestry d
  else None.

Definition holds (sep : ascii) (c : clause) (v : option string) : bool :=
  match c with
  | Equals w => Store.id_eqb v w
  | Regex anchored lit => Store.regex_test anchored lit sep v
  | InIds ids =>
      match v with
      | Some s => existsb (String.eqb s) ids
      | None => false
      end
  end.

(** The conditions the store evaluates: those of [$query] when it is there. *)
Definition conditions (f : filters) : object :=
  match query f with
  | Some q => q
  | None => own f
  end.

Definition satisfies (sep : ascii) (f : filters) (d : node) : bool :=
  forallb (fun kc => holds sep (snd kc) (field (fst kc) d)) (conditions f).

(** ** Query helpers *)

Section Queries.

Variable o : options.

Let sep : ascii := ancestrySeparator o.

(** [getChildren] after its arguments are normalised: the filters handed to
    [find].  [filters0] and [recursive0] are the optional arguments. *)
Definition getChildren (self : node) (filters0 : option filters)
    (recursive0 : option bool) : filters :=
  let filters := match filters0 with Some f => f | None => no_filters end in
  let recursive := match recursive0 with Some b => b | None => false end in
  if recursive then
    match query filters with
    | Some q =>
        Filters
          (Some (obj_set "ancestry"
                   (Regex true (Js.js_str (ancestry self))) q))
          (own filters)
    | None =>
        Filters None
          (obj_set "ancestry"
             (Regex true (Js.js_str (ancestry self))) (own filters))
    end
  else
    match query filters with
    | Some q =>
        Filters (Some (obj_set "parent" (Equals (Some (_id self))) q))
                (own filters)
    | None =>
        Filters None (obj_set "parent" (Equals (Some (_id self))) (own filters))
    end.

(** The [ids] array of [getAncestors]. *)
Definition getAncestors_ids (self : node) : list string :=
  if Js.truthy (ancestry self)
  then Js.pop (Js.split sep (Js.js_str (ancestry self)))
  else [].

(** [getAncestors]: the filters handed to [find]. *)
Definition getAncestors (self : node) (filters0 : option filters) : filters :=
  let filters := match filters0 with Some f => f | None => no_filters end in
  let ids := getAncestors_ids self in
  match query filters with
  | Some q => Filters (Some (obj_set "_id" (InIds ids) q)) (own filters)
  | None => Filters None (obj_set "_id" (InIds ids) (own filters))
  end.

(** [Model.find(filters, ...)] on a reliable store, in collection order. *)
Definition find (db : Store.collection) (f : filters) : list node :=
  filter (satisfies sep f) db.

End Queries.

(** ** The tree assembler of [getChildrenTree] *)

(** A result document once it is placed: [children] is the array the
    assembler gave it, or [None] when it was given none. *)
#[warnings="-register-all"] Inductive tnode : Type :=
| TNode (doc : node) (children : option (list tnode)).

Definition tdoc (t : tnode) : node :=
  match t with TNode d _ => d end.

(** [f] applied to the last element of an array, the others kept; an empty
    array is left as it is. *)
Definition update_last {A E : Type} (f : A -> E + A)
    : list A -> E + list A :=
  fix go (l : list A) : E + list A :=
    match l with
    | [] => inr []
    | x :: l' =>
        match l' with
        | [] => match f x with
                | inl e => inl e
                | inr x' => inr [x']
                end
        | _ :: _ => match go l' with
                    | inl e => inl e
                    | inr l'' => inr (x :: l'')
                    end
        end
    end.

Section Assembler.

Variable minLevel : Z.
Variable allowEmptyChildren : bool.

(** The node as it is pushed: [node.children = []] when
    [allowEmptyChildren]. *)
Definition entry (nd : node) : tnode :=
  TNode nd (if allowEmptyChildren then Some [] else None).

(** [createChildren(myNode.children, node, level)], as the change it makes
    to [myNode]; reading [length] or [push] of a missing [children] throws. *)
Fixpoint descend (myNode : tnode) (nd : node) (lvl : Z) {struct myNode}
    : string + tnode :=
  match myNode with
  | TNode d None => inl TypeError
  | TNode d (Some arr) =>
      match
        (if (lvl =? minLevel)%Z then inr (arr ++ [entry nd])%list
         else update_last (fun x => descend x nd (lvl - 1)) arr)
      with
      | inl e => inl e
      | inr arr' => inr (TNode d (Some arr'))
      end
  end.

(** [createChildren(arr, node, level)] on an array that exists. *)
Definition createChildren (arr : list tnode) (nd : node) (lvl : Z)
    : string + list tnode :=
  if (lvl =? minLevel)%Z then inr (arr ++ [entry nd])%list
  else update_last (fun x => descend x nd (lvl - 1)) arr.

End Assembler.

(** The [args] of [getChildrenTree]; [arg_sort] is [args.options.sort], a key
    mapped to [true] sorts ascending. *)
Record treeArgs : Type := TreeArgs {
  arg_filters : option filters;
  arg_sort : option (obj bool);
  arg_minLevel : option Z;
  arg_recursive : option bool;
  arg_allowEmptyChildren : option bool
}.

Definition no_args : treeArgs := TreeArgs None None None None None.

(** What [getChildrenTree] hands to [next], or the exception that escaped. *)
Inductive treeResult : Type :=
| Forest (finalResults : list tnode)
| TreeFailed (err : string)
| TreeUncaught (exn : string).

(** The order of the store on a field: a missing value first, then strings
    by code points. *)
Definition cmp_value (a b : option string) : comparison :=
  match a, b with
  | None, None => Eq
  | None, Some _ => Lt
  | Some _, None => Gt
  | Some x, Some y => String.compare x y
  end.

Fixpoint cmp_docs (keys : obj bool) (a b : node) : comparison :=
  match keys with
  | [] => Eq
  | (k, asc) :: keys' =>
      match cmp_value (field k a) (field k b) with
      | Eq => cmp_docs keys' a b
      | c => if asc then c else CompOpp c
      end
  end.

Fixpoint insert_sorted (keys : obj bool) (x : node) (l : list node)
    : list node :=
  match l with
  | [] => [x]
  | y :: l' =>
      match cmp_docs keys x y with
      | Gt => y :: insert_sorted keys x l'
      | _ => x :: l
      end
  end.

(** A stable sort of the cursor by the sort keys. *)
Definition sort_docs (keys : obj bool) (l : list node) : list node :=
  fold_right (insert_sorted keys) [] l.

Section ChildrenTree.

Variable o : options.
Variable F : Store.faults.

Let sep : ascii := ancestrySeparator o.

(** [args.minLevel || 1]. *)
Definition argMinLevel (args : treeArgs) : Z :=
  match arg_minLevel args with
  | Some z => if (z =? 0)%Z then 1%Z else z
  | None => 1%Z
  end.

(** [rootLevel]. *)
Definition rootLevel (root : option node) : Z :=
  match root with
  | Some r => (Z.of_nat (getLevel o (ancestry r)) + 1)%Z
  | None => 1%Z
  end.

(** [minLevel] once [if (minLevel < rootLevel) minLevel = rootLevel] ran. *)
Definition effectiveMinLevel (root : option node) (args : treeArgs) : Z :=
  if (argMinLevel args <? rootLevel root)%Z then rootLevel root
  else argMinLevel args.

Definition argAllowEmptyChildren (args : treeArgs) : bool :=
  match arg_allowEmptyChildren args with Some b => b | None => true end.

Definition argRecursive (args : treeArgs) : bool :=
  match arg_recursive args with Some b => b | None => true end.

(** The [for (var r in results)] loop. *)
Fixpoint placeAll (minLevel : Z) (allowEmpty : bool) (results : list node)
    (finalResults : list tnode) : string + list tnode :=
  match results with
  | [] => inr finalResults
  | r :: rest =>
      match createChildren minLevel allowEmpty finalResults r
              (Z.of_nat (getLevel o (ancestry r))) with
      | inl e => inl e
      | inr finalResults' => placeAll minLevel allowEmpty rest finalResults'
      end
  end.

(** The callback of [find] in [getChildrenTree], once [err] is known to be
    absent. *)
Definition assemble (results : list node) (root : option node)
    (args : treeArgs) : treeResult :=
  match placeAll (effectiveMinLevel root args) (argAllowEmptyChildren args)
          results [] with
  | inl e => TreeUncaught e
  | inr finalResults => Forest finalResults
  end.

(** The filters [getChildrenTree] hands to [find]. *)
Definition treeFilters (root : option node) (args : treeArgs) : filters :=
  let filters :=
    match arg_filters args with Some f => f | None => no_filters end in
  if argRecursive args then
    let filters1 :=
      match root with
      | Some r =>
          Filters (query filters)
            (obj_set "ancestry" (Regex true (Js.js_str (ancestry r)))
               (own filters))
      | None => filters
      end in
    match obj_get "parent" (own filters1) with
    | Some (Equals None) =>
        Filters (query filters1) (obj_delete "parent" (own filters1))
    | _ => filters1
    end
  else
    match root with
    | Some r =>
        Filters (query filters)
          (obj_set "parent" (Equals (Some (_id r))) (own filters))
    | None =>
        Filters (query filters) (obj_set "parent" (Equals None) (own filters))
    end.

(** [options.sort] with [options.sort.ancestry = 1]. *)
Definition treeSort (args : treeArgs) : obj bool :=
  obj_set "ancestry" true
    (match arg_sort args with Some s => s | None => [] end).

(** [getChildrenTree(root, args, next)]. *)
Definition getChildrenTree (db : Store.collection) (root : option node)
    (args : treeArgs) : treeResult :=
  match F Store.Find with
  | Some err => TreeFailed err
  | None =>
      assemble
        (sort_docs (treeSort args) (find o db (treeFilters root args)))
        root args
  end.

End ChildrenTree.

(** ** Subtrees, as the ancestry strings encode them *)

(** [d.ancestry] begins with the path of [n] followed by the separator: the
    matcher [descendantPrefix(pathOf(n))] of the design notes. *)
Definition descendantPrefix (o : options) (n d : node) : bool :=
  Store.regex_test true (pathOf o n) (ancestrySeparator o) (ancestry d).

(** [n] is one of the ancestors listed in [d.ancestry]. *)
Definition listsAncestor (o : options) (n d : node) : bool :=
  if Js.truthy (ancestry d)
  then existsb (String.eqb (_id n))
         (Js.split (ancestrySeparator o) (Js.js_str (ancestry d)))
  else false.

(** ** Sample collections *)

(** The chain a <- b <- c. *)
Definition docA : node := Node "a" None None.
Definition docB : node := Node "b" (Some "a") (Some "a").
Definition docC : node := Node "c" (Some "b") (Some "a/b").
Definition chain : Store.collection := [docA; docB; docC].

(** Another root. *)
Definition docX : node := Node "x" None None.

(** A root p with two children n and s; n has a child k and a grandchild g,
    s has a child t. *)
Definition docP : node := Node "p" None None.
Definition docN : node := Node "n" (Some "p") (Some "p").
Definition docK : node := Node "k" (Some "n") (Some "p/n").
Definition docG : node := Node "g" (Some "k") (Some "p/n/k").
Definition docS : node := Node "s" (Some "p") (Some "p").
Definition docT : node := Node "t" (Some "s") (Some "p/s").
Definition family : Store.collection :=
  [docP; docN; docK; docG; docS; docT].

(** A chain pn <- q <- n <- k <- g whose identifiers overlap: [n] ends [pn]. *)
Definition ovPN : node := Node "pn" None None.
Definition ovQ : node := Node "q" (Some "pn") (Some "pn").
Definition ovN : node := Node "n" (Some "q") (Some "pn/q").
Definition ovK : node := Node "k" (Some "n") (Some "pn/q/n").
Definition ovG : node := Node "g" (Some "k") (Some "pn/q/n/k").
Definition overlap : Store.collection := [ovPN; ovQ; ovN; ovK; ovG].

Definition reparentOptions : options :=
  Options None false (Some "REPARENT") None.

(** A store whose only failing call is the descendant [find] of the second
    stage of the REPARENT removal of [n]. *)
Definition stage2FindFails : Store.faults :=
  fun c =>
    match c with
    | Store.FindRegex false lit => if lit =? "n" then Some "ECONNRESET" else None
    | _ => None
    end.

(** A store whose only failing call is [findOne]. *)
Definition findOneFails : Store.faults :=
  fun c =>
    match c with
    | Store.FindOne _ => Some "ECONNRESET"
    | _ => None
    end.

(** ** Well-formed forests *)

(** Every node of the tree was given a [children] array. *)
Fixpoint has_arrays (t : tnode) : bool :=
  match t with
  | TNode _ None => false
  | TNode _ (Some l) => forallb has_arrays l
  end.

Section TnodeInd.

Variable P : tnode -> Prop.
Hypothesis Hleaf : forall d, P (TNode d None).
Hypothesis Hnode : forall d l, Forall P l -> P (TNode d (Some l)).

(** Induction on a placed node, with the property in hand for all its
    children. *)
Fixpoint tnode_forest_ind (t : tnode) : P t :=
  match t with
  | TNode d None => Hleaf d
  | TNode d (Some l) =>
      Hnode d l
        ((fix all (l : list tnode) : Forall P l :=
            match l with
            | [] => Forall_nil P
            | x :: l' => Forall_cons x (tnode_forest_ind x) (all l')
            end) l)
  end.

End TnodeInd.

(** ** Further notions used by the statements *)

(** A character that stands for itself in a regular expression, inside and
    outside a character class: a letter, a digit, or one of [/ _ - : ,]. *)
Definition inert_char (c : ascii) : bool :=
  let n := nat_of_ascii c in
  ((48 <=? n)%nat && (n <=? 57)%nat)
  || ((65 <=? n)%nat && (n <=? 90)%nat)
  || ((97 <=? n)%nat && (n <=? 122)%nat)
  || existsb (Ascii.eqb c) ["/"; "_"; "-"; ":"; ","]%char.

(** A text made of such characters: as a pattern it matches itself only. *)
Fixpoint regex_inert (s : string) : bool :=
  match s with
  | EmptyString => true
  | String c s' => inert_char c && regex_inert s'
  end.

(** The number of times the character [c] occurs in [s]. *)
Fixpoint occurrences (c : ascii) (s : string) : nat :=
  match s with
  | EmptyString => 0
  | String c' s' =>
      if Ascii.eqb c' c then S (occurrences c s') else occurrences c s'
  end.

(** [l1] is [l2] with some elements left out. *)
Inductive subseq {A : Type} : list A -> list A -> Prop :=
| subseq_nil : subseq [] []
| subseq_skip (x : A) (l1 l2 : list A) : subseq l1 l2 -> subseq l1 (x :: l2)
| subseq_take (x : A) (l1 l2 : list A) :
    subseq l1 l2 -> subseq (x :: l1) (x :: l2).

(** The documents of a placed node, the node first, then its children from
    the first to the last. *)
Fixpoint flatten (t : tnode) : list node :=
  match t with
  | TNode d None => [d]
  | TNode d (Some l) => d :: flat_map flatten l
  end.

(** The node is at level [base], its children one level further, and so on. *)
Fixpoint levelled (o : options) (base : Z) (t : tnode) : bool :=
  match t with
  | TNode d None => (Z.of_nat (level o d) =? base)%Z
  | TNode d (Some l) =>
      (Z.of_nat (level o d) =? base)%Z && forallb (levelled o (base + 1)) l
  end.

(** The node was given no [children] array. *)
Definition childless (t : tnode) : bool :=
  match t with
  | TNode _ None => true
  | TNode _ (Some _) => false
  end.

(** ** [getParent] *)

(** [getParent(next)]: what [findOne({ _id: this.parent })] answers. *)
Definition getParent (F : Store.faults) (db : Store.collection) (self : node)
    : string + option node :=
  Store.findOne F db (parent self).

(** ** Optional arguments *)

(** A positional argument as the helpers test it, by [typeof] and by
    truthiness: absent, [null], a function, a boolean, or a value of the kind
    [A] the position is meant for. *)
Inductive arg (A : Type) : Type :=
| Undefined
| Null
| Function (name : string)
| Boolean (b : bool)
| Given (a : A).

Arguments Undefined {A}.
Arguments Null {A}.
Arguments Function {A} name.
Arguments Boolean {A} b.
Arguments Given {A} a.

Definition is_function {A} (v : arg A) : bool :=
  match v with Function _ => true | _ => false end.

(** JavaScript truthiness, given the truthiness of the values of kind [A]. *)
Definition truthy_arg {A} (t : A -> bool) (v : arg A) : bool :=
  match v with
  | Undefined | Null => false
  | Function _ => true
  | Boolean b => b
  | Given a => t a
  end.


(** A [fields] argument of [find]: a string of field names or an object. *)
Inductive projection : Type :=
| FieldNames (s : string)
| FieldMap (m : obj Z).

Definition projection_truthy (p : projection) : bool :=
  match p with
  | FieldNames s => negb (s =? "")
  | FieldMap _ => true
  end.



Definition always {A} (_ : A) : bool := true.



(** ** The arguments of [getChildrenTree] *)

(** The [args] object: the entries of [treeArgs], with [args.fields] and
    [args.options.lean]. *)
Record treeCallArgs : Type := TreeCallArgs {
  tc_args : treeArgs;
  tc_fields : option projection;
  tc_lean : option bool
}.

Definition no_call_args : treeCallArgs := TreeCallArgs no_args None None.

(** What the first position holds when it holds an object: a document (it
    has a [model] property) or a plain object. *)
Inductive rootValue : Type :=
| RootDoc (d : node)
| RootPlain (a : treeCallArgs).

Definition NoCallback : string :=
  "no callback defined when calling getChildrenTree".

(** The head of [getChildrenTree(root, args, next)], up to the test of the
    callback: the exception thrown, or the root, the [args] object and the
    callback the rest of the function works with. *)
Definition treeEntry (root : arg rootValue) (args : arg treeCallArgs)
    (next : arg unit) : string + (arg rootValue * treeCallArgs * arg unit) :=
  let resolved : string + (arg rootValue * arg treeCallArgs * arg unit) :=
    match root with
    | Function f => inr (Null, Given no_call_args, Function f)
    | _ =>
        match args with
        | Function f =>
            match root with
            | Given (RootDoc _) => inr (root, Given no_call_args, Function f)
            | Given (RootPlain a) => inr (Null, Given a, Function f)
            | _ => inl TypeError
            end
        | _ => inr (root, args, next)
        end
    end in
  match resolved with
  | inl e => inl e
  | inr (root', args', next') =>
      match args' with
      | Undefined | Null => inl TypeError
      | Given a =>
          if truthy_arg always next' then inr (root', a, next')
          else inl NoCallback
      | Boolean _ | Function _ =>
          if truthy_arg always next' then inr (root', no_call_args, next')
          else inl NoCallback
      end
  end.


Definition hasOwn {V} (k : string) (ob : obj V) : bool :=
  match obj_get k ob with Some _ => true | None => false end.

(** The [fields] that [getChildrenTree] hands to [find]: [args.fields || null]
    with [ancestry] and [parent] added when they are not there. *)
Definition treeFields (fields0 : option projection) : option projection :=
  match fields0 with
  | None => None
  | Some p =>
      if projection_truthy p then
        match p with
        | FieldMap m =>
            let m1 :=
              if hasOwn "ancestry" m then m else obj_set "ancestry" 1%Z m in
            let m2 :=
              if hasOwn "parent" m1 then m1 else obj_set "parent" 1%Z m1 in
            Some (FieldMap m2)
        | FieldNames s =>
            let s1 :=
              if Js.includes "ancestry" s then s else s ++ " ancestry" in
            let s2 :=
              if Js.includes "parent" s1 then s1 else s1 ++ " parent" in
            Some (FieldNames s2)
        end
      else None
  end.


(** * Properties *)

(** ** JavaScript helpers *)

Lemma split_not_nil (sep : ascii) (s : string) : Js.split sep s <> [].
Proof.
  destruct s as [|c s]; simpl; [discriminate|].
  destruct (Ascii.eqb c sep); [discriminate|].
  destruct (Js.split sep s); discriminate.
Qed.

Lemma truthy_Some (a : option string) :
  Js.truthy a = true -> exists s, a = Some s /\ s <> "".
Proof.
  destruct a as [s|]; simpl; [|discriminate].
  intros H. exists s. split; [reflexivity|].
  intros ->. discriminate.
Qed.

(** ** Objects as maps *)

Lemma obj_get_set_same {V} (k : string) (c : V) (ob : obj V) :
  obj_get k (obj_set k c ob) = Some c.
Proof.
  induction ob as [|[k' c'] ob IH]; simpl.
  - now rewrite String.eqb_refl.
  - destruct (k' =? k) eqn:E; simpl; rewrite E; [reflexivity | exact IH].
Qed.

Lemma obj_get_set_other {V} (k k' : string) (c : V) (ob : obj V) :
  k' <> k -> obj_get k' (obj_set k c ob) = obj_get k' ob.
Proof.
  intros Hne. induction ob as [|[k0 c0] ob IH]; simpl.
  - apply String.eqb_neq in Hne. rewrite String.eqb_sym. now rewrite Hne.
  - destruct (k0 =? k) eqn:E; simpl.
    + apply String.eqb_eq in E. subst k0.
      destruct (k =? k') eqn:E'; [|reflexivity].
      apply String.eqb_eq in E'. now subst.
    + destruct (k0 =? k'); [reflexivity | exact IH].
Qed.

(** ** The tree assembler *)

Lemma update_last_docs (f : tnode -> string + tnode) :
  (forall x x', f x = inr x' -> tdoc x' = tdoc x) ->
  forall l l', update_last f l = inr l' -> map tdoc l' = map tdoc l.
Proof.
  intros Hf l. induction l as [|x l IH]; intros l' H.
  - simpl in H. injection H as <-. reflexivity.
  - destruct l as [|y l].
    + simpl in H. destruct (f x) as [e|x'] eqn:E; [discriminate|].
      injection H as <-. simpl. now rewrite (Hf _ _ E).
    + change (update_last f (x :: y :: l))
        with (match update_last f (y :: l) with
              | inl e => inl e
              | inr l'' => inr (x :: l'')
              end) in H.
      destruct (update_last f (y :: l)) as [e|l''] eqn:E; [discriminate|].
      injection H as <-. simpl. f_equal. now apply IH.
Qed.

Lemma descend_doc m ae t nd lvl t' :
  descend m ae t nd lvl = inr t' -> tdoc t' = tdoc t.
Proof.
  destruct t as [d [arr|]]; simpl; [|discriminate].
  destruct (lvl =? m)%Z.
  - intros H. injection H as <-. reflexivity.
  - destruct (update_last _ arr); [discriminate|].
    intros H. injection H as <-. reflexivity.
Qed.

(** A call of [createChildren] adds a top-level entry exactly when the level
    is [minLevel]; otherwise the top-level documents stay as they are. *)
Lemma createChildren_docs m ae arr nd lvl arr' :
  createChildren m ae arr nd lvl = inr arr' ->
  map tdoc arr' = (map tdoc arr ++ (if (lvl =? m)%Z then [nd] else []))%list.
Proof.
  unfold createChildren. destruct (lvl =? m)%Z.
  - intros H. injection H as <-. rewrite map_app. reflexivity.
  - intros H. rewrite app_nil_r. eapply update_last_docs; [|exact H].
    intros x x'. apply descend_doc.
Qed.

(** The top-level entries of the forest are the results at [minLevel], in
    the order of the cursor. *)
Lemma placeAll_docs o m ae results : forall acc fr,
  placeAll o m ae results acc = inr fr ->
  map tdoc fr =
  (map tdoc acc
   ++ filter (fun r => (Z.of_nat (level o r) =? m)%Z) results)%list.
Proof.
  induction results as [|r rest IH]; intros acc fr H; simpl in H.
  - injection H as <-. simpl. now rewrite app_nil_r.
  - destruct (createChildren m ae acc r _) as [e|acc'] eqn:E; [discriminate|].
    apply IH in H. rewrite H. rewrite (createChildren_docs _ _ _ _ _ _ E).
    simpl. unfold level at 3.
    destruct (_ =? m)%Z; simpl; rewrite <- app_assoc; reflexivity.
Qed.

Lemma update_last_total (f : tnode -> string + tnode) (l : list tnode) :
  Forall (fun x => has_arrays x = true ->
                   exists x', f x = inr x' /\ has_arrays x' = true) l ->
  forallb has_arrays l = true ->
  exists l', update_last f l = inr l' /\ forallb has_arrays l' = true.
Proof.
  induction l as [|x l IH]; intros HF Hl.
  - exists []. split; reflexivity.
  - inversion HF as [|? ? Hx HF']; subst.
    simpl in Hl. apply andb_true_iff in Hl as [Hx1 Hl1].
    destruct l as [|y l].
    + destruct (Hx Hx1) as [x' [E1 E2]]. exists [x']. simpl. rewrite E1.
      split; [reflexivity|]. now rewrite E2.
    + destruct (IH HF' Hl1) as [l' [E1 E2]]. exists (x :: l').
      change (update_last f (x :: y :: l))
        with (match update_last f (y :: l) with
              | inl e => inl e
              | inr l'' => inr (x :: l'')
              end).
      rewrite E1. split; [reflexivity|]. simpl. now rewrite Hx1, E2.
Qed.

Lemma descend_total m t : forall nd lvl,
  has_arrays t = true ->
  exists t', descend m true t nd lvl = inr t' /\ has_arrays t' = true.
Proof.
  induction t as [d|d l IH] using tnode_forest_ind; intros nd lvl Ht.
  - discriminate.
  - simpl in Ht. simpl. destruct (lvl =? m)%Z.
    + eexists. split; [reflexivity|]. simpl.
      rewrite forallb_app, Ht. reflexivity.
    + destruct (update_last_total (fun x => descend m true x nd (lvl - 1)) l)
        as [l' [E1 E2]]; [|exact Ht|].
      * eapply Forall_impl; [|exact IH]. intros x Hx Hax. now apply Hx.
      * rewrite E1. eexists. split; [reflexivity|]. exact E2.
Qed.

Lemma createChildren_total m arr nd lvl :
  forallb has_arrays arr = true ->
  exists arr', createChildren m true arr nd lvl = inr arr'
               /\ forallb has_arrays arr' = true.
Proof.
  intros Ha. unfold createChildren. destruct (lvl =? m)%Z.
  - eexists. split; [reflexivity|]. rewrite forallb_app, Ha. reflexivity.
  - apply update_last_total; [|exact Ha].
    apply Forall_forall. intros x _ Hx. now apply descend_total.
Qed.

Lemma placeAll_total o m results : forall acc,
  forallb has_arrays acc = true ->
  exists fr, placeAll o m true results acc = inr fr.
Proof.
  induction results as [|r rest IH]; intros acc Ha; simpl.
  - now exists acc.
  - destruct (createChildren_total m acc r
                (Z.of_nat (getLevel o (ancestry r))) Ha) as [acc' [E1 E2]].
    rewrite E1. now apply IH.
Qed.

(** With [allowEmptyChildren] left at its default and a store that answers,
    [getChildrenTree] hands a forest to [next]. *)
Lemma getChildrenTree_returns o F db root args :
  F Store.Find = None ->
  argAllowEmptyChildren args = true ->
  exists fr, getChildrenTree o F db root args = Forest fr.
Proof.
  intros HF Hae. unfold getChildrenTree, assemble. rewrite HF, Hae.
  destruct (placeAll_total o (effectiveMinLevel o root args)
              (sort_docs (treeSort args) (find o db (treeFilters root args)))
              [] eq_refl) as [fr E].
  rewrite E. now exists fr.
Qed.

Lemma effectiveMinLevel_max o root args :
  effectiveMinLevel o root args = Z.max (argMinLevel args) (rootLevel o root).
Proof.
  unfold effectiveMinLevel.
  destruct (Z.ltb_spec (argMinLevel args) (rootLevel o root)); lia.
Qed.

(** The top-level entries of an assembled forest are the results whose level
    is the effective [minLevel]. *)
Lemma assemble_top_level o results root args fr :
  assemble o results root args = Forest fr ->
  map tdoc fr =
  filter (fun r => (Z.of_nat (level o r) =? effectiveMinLevel o root args)%Z)
    results.
Proof.
  unfold assemble.
  destruct (placeAll o _ _ results []) as [e|fr'] eqn:E; [discriminate|].
  intros H. injection H as <-. now apply placeAll_docs in E.
Qed.

(** ** Bulk rewrites on a reliable store *)

Lemma streamWorker_updates (g : node -> node -> node) :
  forall items db,
    streamWorker items
      (fun doc db =>
         store_step (Store.update Store.reliable db (_id doc) (g doc)) db)
      db
    = (Done,
       fold_left (fun db doc => Store.update_first (_id doc) (g doc) db)
         items db).
Proof.
  induction items as [|doc rest IH]; intros db; simpl; [reflexivity|].
  now rewrite IH.
Qed.

Lemma updates_skip_head (g : node -> node -> node) :
  forall items h db,
    (forall x, In x items -> _id x <> _id h) ->
    fold_left (fun db doc => Store.update_first (_id doc) (g doc) db)
      items (h :: db)
    = h :: fold_left (fun db doc => Store.update_first (_id doc) (g doc) db)
             items db.
Proof.
  induction items as [|x rest IH]; intros h db Hne; simpl; [reflexivity|].
  assert (Hx : (_id h =? _id x) = false).
  { apply String.eqb_neq. intros E. apply (Hne x); [now left | now symmetry]. }
  rewrite Hx. apply IH. intros y Hy. apply Hne. now right.
Qed.

(** Updating, one by one, the documents a filter selected rewrites exactly
    the selected documents, each from its own stored value. *)
Lemma updates_of_selection (p : node -> bool) (g : node -> node -> node) :
  (forall doc d, _id (g doc d) = _id d) ->
  forall db,
    NoDup (map _id db) ->
    fold_left (fun db doc => Store.update_first (_id doc) (g doc) db)
      (filter p db) db
    = map (fun d => if p d then g d d else d) db.
Proof.
  intros Hid. induction db as [|d db IH]; intros Hnd; [reflexivity|].
  inversion Hnd as [|? ? Hnotin Hnd']; subst.
  assert (Hothers : forall x, In x (filter p db) -> _id x <> _id d).
  { intros x Hx E. apply Hnotin. rewrite <- E.
    apply in_map. apply filter_In in Hx. tauto. }
  simpl. destruct (p d) eqn:Ep.
  - simpl. rewrite String.eqb_refl.
    rewrite updates_skip_head.
    + now rewrite IH.
    + intros x Hx. rewrite Hid. now apply Hothers.
  - rewrite updates_skip_head by exact Hothers. now rewrite IH.
Qed.

(** ** What the hooks do *)

(** A save that follows a parent change, on a reliable store holding the new
    parent: the document gets the path of the parent as its ancestry, and the
    documents rewritten are those whose ancestry begins with the OLD ANCESTRY
    of the document followed by the separator. *)
Lemma preSave_parent_change_rewrite o db self isNew doc prev :
  NoDup (map _id db) ->
  Js.truthy (parent self) = true ->
  Store.findOne Store.reliable db (parent self) = inr (Some doc) ->
  ancestry self = Some prev ->
  preSave o Store.reliable db self isNew true
  = (Done,
     set_ancestry (Some (pathOf o doc)) self,
     map (fun d =>
            if Store.regex_test true prev (ancestrySeparator o) (ancestry d)
            then set_ancestry
                   (Some (pathOf o doc
                          ++ Js.substr (String.length prev)
                               (Js.js_str (ancestry d)))) d
            else d) db).
Proof.
  intros Hnd Hp Hfind Hprev. unfold preSave.
  rewrite orb_true_r, Hp, Hfind, Hprev. simpl negb. cbv iota.
  assert (Hself :
    (if Js.truthy (ancestry doc)
     then set_ancestry
            (Some (Js.js_str (ancestry doc)
                   ++ Js.chr (ancestrySeparator o) ++ _id doc)) self
     else set_ancestry (Some (_id doc)) self)
    = set_ancestry (Some (pathOf o doc)) self).
  { unfold pathOf. now destruct (Js.truthy (ancestry doc)). }
  cbv zeta. rewrite Hself. unfold Store.findRegex, streamCursor.
  change (Store.reliable (Store.FindRegex true (Js.js_str (Some prev))))
    with (@None string).
  cbv iota. simpl Js.js_str.
  rewrite (streamWorker_updates
             (fun doc0 => set_ancestry
                (Some (pathOf o doc
                       ++ Js.substr (String.length prev)
                            (Js.js_str (ancestry doc0)))))).
  f_equal.
  apply (updates_of_selection
           (fun d => Store.regex_test true prev (ancestrySeparator o)
                       (ancestry d))
           (fun doc0 => set_ancestry
              (Some (pathOf o doc
                     ++ Js.substr (String.length prev)
                          (Js.js_str (ancestry doc0)))))).
  - reflexivity.
  - exact Hnd.
Qed.

(** A save without a parent leaves the document as it came, whatever its
    ancestry was. *)
Lemma preSave_no_parent o F db self isNew isParentChange :
  Js.truthy (parent self) = false ->
  preSave o F db self isNew isParentChange = (Done, self, db).
Proof.
  intros Hp. unfold preSave. rewrite Hp.
  now destruct (isNew || isParentChange).
Qed.

(** An error of the parent fetch is handed to [next]. *)
Lemma preSave_findOne_error o F db self isNew isParentChange err :
  isNew || isParentChange = true ->
  Js.truthy (parent self) = true ->
  F (Store.FindOne (parent self)) = Some err ->
  preSave o F db self isNew isParentChange = (Failed err, self, db).
Proof.
  intros Hc Hp HF. unfold preSave, Store.findOne. now rewrite Hc, Hp, HF.
Qed.

(** A parent that the store does not hold makes the callback of [findOne]
    throw: [next] is not called. *)
Lemma preSave_parent_not_found o F db self isNew isParentChange :
  isNew || isParentChange = true ->
  Js.truthy (parent self) = true ->
  Store.findOne F db (parent self) = inr None ->
  preSave o F db self isNew isParentChange = (Uncaught TypeError, self, db).
Proof.
  intros Hc Hp HF. unfold preSave. now rewrite Hc, Hp, HF.
Qed.

(** Removing a document without ancestry touches no other document,
    whatever the policy. *)
Lemma preRemove_without_ancestry o F db self :
  Js.truthy (ancestry self) = false ->
  preRemove o F db self = (Done, db).
Proof.
  intros Ha. unfold preRemove. now rewrite Ha.
Qed.

(** Under DELETE, on a reliable store, the documents deleted with [self] are
    those whose ancestry begins with the ancestry of [self] followed by the
    separator. *)
Lemma remove_DELETE_selection o db self :
  Js.truthy (ancestry self) = true ->
  onDelete o = "DELETE" ->
  remove o Store.reliable db self
  = (Done,
     filter (fun d => negb (_id d =? _id self))
       (filter
          (fun d =>
             negb (Store.regex_test true (Js.js_str (ancestry self))
                     (ancestrySeparator o) (ancestry d))) db)).
Proof.
  intros Ha Hd. unfold remove, preRemove. rewrite Ha, Hd. reflexivity.
Qed.

(** Under REPARENT, on a reliable store, the removal of a node that has an
    ancestry rewrites the collection in two passes: the documents whose
    parent is the node get the parent of the node; then the documents whose
    ancestry contains the identifier of the node followed by the separator
    lose the first occurrence of that text. *)
Lemma preRemove_REPARENT_rewrite o db self :
  NoDup (map _id db) ->
  Js.truthy (ancestry self) = true ->
  (onDelete o =? "DELETE") = false ->
  preRemove o Store.reliable db self
  = (Done,
     map (fun d =>
            if Store.regex_test false (_id self) (ancestrySeparator o)
                 (ancestry d)
            then set_ancestry
                   (Some (Js.replace_first
                            (_id self ++ Js.chr (ancestrySeparator o))
                            (Js.js_str (ancestry d)))) d
            else d)
       (map (fun d =>
               if Store.id_eqb (parent d) (Some (_id self))
               then set_parent (parent self) d
               else d) db)).
Proof.
  intros Hnd Ha Hd. unfold preRemove. rewrite Ha, Hd. simpl negb. cbv iota.
  unfold Store.findByParent, Store.findRegex, streamCursor.
  change (Store.reliable (Store.FindByParent (_id self))) with (@None string).
  cbv iota zeta.
  rewrite (streamWorker_updates (fun _ => set_parent (parent self))).
  rewrite (updates_of_selection
             (fun d => Store.id_eqb (parent d) (Some (_id self)))
             (fun _ => set_parent (parent self)))
    by (reflexivity || exact Hnd).
  change (Store.reliable (Store.FindRegex false (_id self)))
    with (@None string).
  cbv iota.
  rewrite (streamWorker_updates
             (fun doc => set_ancestry
                (Some (Js.replace_first
                         (_id self ++ Js.chr (ancestrySeparator o))
                         (Js.js_str (ancestry doc)))))).
  f_equal.
  apply (updates_of_selection
           (fun d => Store.regex_test false (_id self) (ancestrySeparator o)
                       (ancestry d))
           (fun doc => set_ancestry
              (Some (Js.replace_first
                       (_id self ++ Js.chr (ancestrySeparator o))
                       (Js.js_str (ancestry doc)))))).
  - reflexivity.
  - rewrite map_map.
    erewrite map_ext; [exact Hnd|].
    intros d. now destruct (Store.id_eqb (parent d) (Some (_id self))).
Qed.

(** Under REPARENT, an error of the first [find] is handed to [next] and the
    collection is left as it was. *)
Lemma preRemove_REPARENT_stage1_find_error o F db self err :
  Js.truthy (ancestry self) = true ->
  (onDelete o =? "DELETE") = false ->
  F (Store.FindByParent (_id self)) = Some err ->
  preRemove o F db self = (Failed err, db).
Proof.
  intros Ha Hd HF. unfold preRemove, Store.findByParent.
  now rewrite Ha, Hd, HF.
Qed.

(** Whatever the first stage of a REPARENT removal hands over, [streamWorker]
    ends by a call of its completion callback. *)
Lemma streamWorker_store_step_calls_next F (g : node -> node -> node) :
  forall items db,
    next_calls
      (fst (streamWorker items
              (fun doc db =>
                 store_step (Store.update F db (_id doc) (g doc)) db) db))
    = 1.
Proof.
  induction items as [|doc rest IH]; intros db; simpl; [reflexivity|].
  destruct (store_step _ db) as [c db1]. specialize (IH db1).
  destruct (streamWorker rest _ db1) as [c' db2].
  destruct c; simpl in *; auto.
Qed.

(** ** The query helpers *)

(** The list of [getAncestors] is one identifier short of the level. *)
Lemma getAncestors_ids_one_short o self :
  Js.truthy (ancestry self) = true ->
  getAncestors_ids o self
  = removelast (Js.split (ancestrySeparator o) (Js.js_str (ancestry self)))
  /\ S (List.length (getAncestors_ids o self)) = level o self.
Proof.
  intros Ha. unfold getAncestors_ids, level, getLevel, Js.pop. rewrite Ha.
  split; [reflexivity|].
  pose proof (split_not_nil (ancestrySeparator o) (Js.js_str (ancestry self)))
    as Hne.
  destruct (Js.split (ancestrySeparator o) (Js.js_str (ancestry self)))
    as [|h t] using rev_ind; [contradiction|].
  rewrite removelast_last, length_app. simpl. lia.
Qed.

(** Without [recursive], [getChildren] filters on [parent == self._id], and
    this clause replaces a caller's clause on [parent]. *)
Lemma getChildren_direct self f :
  obj_get "parent" (conditions (getChildren self f (Some false)))
  = Some (Equals (Some (_id self))).
Proof.
  unfold getChildren, conditions.
  destruct f as [[[q|] ow]|]; simpl;
    first [apply obj_get_set_same | reflexivity].
Qed.

(** The clauses of the caller on other keys are kept. *)
Lemma getChildren_keeps_caller_clauses self f recursive k :
  k <> "ancestry" -> k <> "parent" ->
  obj_get k (conditions (getChildren self (Some f) recursive))
  = obj_get k (conditions f).
Proof.
  intros H1 H2. unfold getChildren, conditions.
  destruct recursive as [[|]|]; destruct f as [[q|] ow]; simpl;
    now apply obj_get_set_other.
Qed.

(** With [recursive], the clause on [ancestry] is the anchored match of the
    ancestry of [self], and it replaces a caller's clause on that key. *)
Lemma getChildren_recursive_clause self f :
  obj_get "ancestry" (conditions (getChildren self f (Some true)))
  = Some (Regex true (Js.js_str (ancestry self))).
Proof.
  unfold getChildren, conditions.
  destruct f as [[[q|] ow]|]; simpl;
    first [apply obj_get_set_same | reflexivity].
Qed.

(** Whatever the arguments, with or without a root document, no document of
    level 0 is a top-level entry of the forest: the effective [minLevel] is
    at least 1. *)
Lemma getChildrenTree_top_level_not_root o F db root args fr :
  getChildrenTree o F db root args = Forest fr ->
  Forall (fun t => 1 <= level o (tdoc t)) fr.
Proof.
  intros H. unfold getChildrenTree in H.
  destruct (F Store.Find); [discriminate|].
  apply assemble_top_level in H.
  apply Forall_forall. intros t Ht.
  assert (Hin : In (tdoc t) (map tdoc fr)) by now apply in_map.
  rewrite H in Hin. apply filter_In in Hin as [_ Hlvl].
  apply Z.eqb_eq in Hlvl. rewrite effectiveMinLevel_max in Hlvl.
  assert (1 <= rootLevel o root)%Z by (destruct root; simpl; lia).
  lia.
Qed.

(** * The claims *)

(** C1 (code defect).  A removal under the DELETE policy should delete,
    besides the node, exactly the nodes whose ancestry begins with the path of
    the node followed by the separator, also when the node is a root.  The
    hook matches on the ANCESTRY of the node instead of its path and returns
    at once for a node without ancestry.  Removing [n] from [family] deletes
    [t], a child of the sibling [s] that is no descendant of [n]; removing
    the root [a] from [chain] deletes nothing else, although [c] is in its
    subtree (and so is its child [b]). *)
Theorem preRemove_DELETE_misses_the_subtree :
  remove defaults Store.reliable family docN = (Done, [docP; docS])
  /\ In docT family
  /\ descendantPrefix defaults docN docT = false
  /\ listsAncestor defaults docN docT = false
  /\ remove defaults Store.reliable chain docA = (Done, [docB; docC])
  /\ descendantPrefix defaults docA docC = true
  /\ parent docB = Some (_id docA).
Proof.
  repeat split; try reflexivity.
  unfold family. simpl. tauto.
Qed.

(** C2 (code defect).  After a parent change the former descendants of the
    node should carry the new prefix and every node outside its subtree should
    be untouched, also when the node was a root.  The hook selects the nodes
    whose ancestry begins with the OLD ANCESTRY of the node.  Moving [n] of
    [family] under [x] rewrites [k] and [g] as claimed but also turns the
    ancestry of [t], which is outside the subtree of [n], from [p/s] into
    [x/s]; moving the root [a] of [chain] under [x] leaves [b] and [c] with
    the ancestries [a] and [a/b] although the path of [a] is now [x/a]. *)
Theorem preSave_reparent_rewrites_outside_subtree :
  save defaults Store.reliable (family ++ [docX])%list
    (Node "n" (Some "x") (Some "p")) false true
  = (Done, Node "n" (Some "x") (Some "x"),
     [docP; Node "n" (Some "x") (Some "x");
      set_ancestry (Some "x/n") docK; set_ancestry (Some "x/n/k") docG;
      docS; set_ancestry (Some "x/s") docT; docX])
  /\ descendantPrefix defaults docN docT = false
  /\ listsAncestor defaults docN docT = false
  /\ ancestry docT = Some "p/s"
  /\ save defaults Store.reliable (chain ++ [docX])%list
       (Node "a" (Some "x") None) false true
     = (Done, Node "a" (Some "x") (Some "x"),
        [Node "a" (Some "x") (Some "x"); docB; docC; docX])
  /\ pathOf defaults (Node "a" (Some "x") (Some "x")) = "x/a"
  /\ ancestry docB = Some "a"
  /\ ancestry docC = Some "a/b".
Proof.
  repeat split; reflexivity.
Qed.

(** C3 (code defect).  A removal under the REPARENT policy should give every
    direct child the former parent of the node and drop the node from the
    ancestry of every deeper descendant.  The hook returns at once for a node
    without ancestry: removing the root [a] from [chain] leaves [b] with
    [parent = a], where the former parent of [a] is none, and [c] with the
    ancestry [a/b].  Where identifiers overlap the splice goes wrong as
    well: removing [n] from [overlap] cuts the first [n/] out of [pn/q/n/k],
    which leaves [pq/n/k], an ancestry that still lists [n]. *)
Theorem preRemove_REPARENT_skips_root :
  remove reparentOptions Store.reliable chain docA = (Done, [docB; docC])
  /\ parent docB = Some "a"
  /\ parent docA = None
  /\ listsAncestor reparentOptions docA docC = true
  /\ remove reparentOptions Store.reliable overlap ovN
     = (Done,
        [ovPN; ovQ; Node "k" (Some "q") (Some "pq/n");
         Node "g" (Some "k") (Some "pq/n/k")])
  /\ listsAncestor reparentOptions ovN (Node "g" (Some "k") (Some "pq/n/k"))
     = true.
Proof.
  repeat split; reflexivity.
Qed.

(** C4 (code defect).  For the chain a <- b <- c, [getChildrenTree] with
    default options should return the forest whose single root is [a].  The
    level of a root is 0 and the least [minLevel] is 1, so [a] finds no
    array to go in and is dropped: the forest returned has [b] as its single
    top-level entry. *)
Theorem getChildrenTree_default_drops_root :
  getChildrenTree defaults Store.reliable chain None no_args
  = Forest [TNode docB (Some [TNode docC (Some [])])]
  /\ getChildrenTree defaults Store.reliable chain None no_args
     <> Forest [TNode docA (Some [TNode docB (Some [TNode docC (Some [])])])]
  /\ level defaults docA = 0
  /\ effectiveMinLevel defaults None no_args = 1%Z.
Proof.
  repeat split; try reflexivity.
  vm_compute. discriminate.
Qed.

(** C5 (code defect).  [getAncestors] should ask for all the identifiers of
    the ancestry, the direct parent included.  The array is popped after the
    split, so the direct parent is missing: for [c], whose ancestry is
    [a/b], the [$in] list is [a] alone; for [b], a child of the root, it is
    empty.  For a root it is empty, as claimed. *)
Theorem getAncestors_drops_direct_parent :
  getAncestors_ids defaults docC = ["a"]
  /\ Js.split (ancestrySeparator defaults) "a/b" = ["a"; "b"]
  /\ parent docC = Some "b"
  /\ conditions (getAncestors defaults docC None) = [("_id", InIds ["a"])]
  /\ getAncestors_ids defaults docB = []
  /\ parent docB = Some "a"
  /\ getAncestors_ids defaults docA = [].
Proof.
  repeat split; reflexivity.
Qed.

(** C6 (code defect).  When the parent of a saved node does not resolve, the
    pre-save hook should hand an error to [next].  The callback of [findOne]
    tests [err] only and then reads [doc.ancestry]: with no document found it
    throws, and [next] is never called.  An error of the fetch itself is
    handed to [next], as claimed. *)
Theorem preSave_missing_parent_throws :
  Store.findOne Store.reliable [docA] (Some "zz") = inr None
  /\ save defaults Store.reliable [docA] (Node "b" (Some "zz") None) true false
     = (Uncaught TypeError, Node "b" (Some "zz") None, [docA])
  /\ next_calls (Uncaught TypeError) = 0
  /\ save defaults findOneFails [docA] (Node "b" (Some "a") None) true false
     = (Failed "ECONNRESET", Node "b" (Some "a") None, [docA]).
Proof.
  repeat split; reflexivity.
Qed.

(** C7 (code defect).  A node saved without a parent should end with an empty
    ancestry and level 0, also when its parent was just cleared.  The hook
    returns before it touches the ancestry: [b] saved with its parent
    cleared keeps the ancestry [a] and the level 1.  A new node without
    parent and ancestry is saved with level 0, as claimed. *)
Theorem save_cleared_parent_keeps_ancestry :
  save defaults Store.reliable chain (Node "b" None (Some "a")) false true
  = (Done, Node "b" None (Some "a"), [docA; Node "b" None (Some "a"); docC])
  /\ level defaults (Node "b" None (Some "a")) = 1
  /\ save defaults Store.reliable chain docX true false
     = (Done, docX, [docA; docB; docC; docX])
  /\ level defaults docX = 0.
Proof.
  repeat split; reflexivity.
Qed.

(** C9 (code defect).  With [recursive], [getChildren] should select the
    nodes whose ancestry begins with the path of [self] followed by the
    separator.  The clause is built from the ANCESTRY of [self]: for [n] in
    [family] the query also returns [t], a child of the sibling [s]; for the
    root [a] of [chain] the pattern is [^undefined[/]] and the query returns
    nothing, although [c] is in the subtree.  Without [recursive] the clause
    is [parent == self._id] and the clause of the plugin replaces the
    caller's, as claimed ([getChildren_direct],
    [getChildren_keeps_caller_clauses]). *)
Theorem getChildren_recursive_uses_own_ancestry :
  conditions (getChildren docN None (Some true)) = [("ancestry", Regex true "p")]
  /\ find defaults family (getChildren docN None (Some true))
     = [docK; docG; docT]
  /\ filter (descendantPrefix defaults docN) family = [docG]
  /\ listsAncestor defaults docN docT = false
  /\ conditions (getChildren docA None (Some true))
     = [("ancestry", Regex true "undefined")]
  /\ find defaults chain (getChildren docA None (Some true)) = []
  /\ filter (descendantPrefix defaults docA) chain = [docC].
Proof.
  repeat split; reflexivity.
Qed.

(** C10.  When [getChildrenTree] is given a root document, the effective
    [minLevel] is the caller's [minLevel] (1 when absent) raised to the level
    of the root plus one, and every top-level entry of the forest handed to
    [next] is at that level, hence strictly below the root. *)
Theorem getChildrenTree_root_raises_minLevel :
  forall (o : options) (F : Store.faults) (db : Store.collection)
         (root : node) (args : treeArgs),
    effectiveMinLevel o (Some root) args
    = Z.max (argMinLevel args) (Z.of_nat (level o root) + 1)
    /\ forall finalResults,
         getChildrenTree o F db (Some root) args = Forest finalResults ->
         Forall
           (fun t =>
              Z.of_nat (level o (tdoc t)) = effectiveMinLevel o (Some root) args
              /\ level o root < level o (tdoc t))
           finalResults.
Proof.
  intros o F db root args.
  pose proof (effectiveMinLevel_max o (Some root) args) as Hmax.
  split; [exact Hmax|].
  intros fr H. unfold getChildrenTree in H.
  destruct (F Store.Find); [discriminate|].
  apply assemble_top_level in H.
  apply Forall_forall. intros t Ht.
  assert (Hin : In (tdoc t) (map tdoc fr)) by now apply in_map.
  rewrite H in Hin. apply filter_In in Hin as [_ Hlvl].
  apply Z.eqb_eq in Hlvl. split; [exact Hlvl|].
  rewrite Hmax in Hlvl. simpl rootLevel in Hlvl. unfold level in *. lia.
Qed.

Lemma getChildrenTree_root_raises_minLevel_witness :
  getChildrenTree defaults Store.reliable chain (Some docB) no_args
  = Forest [TNode docC (Some [])]
  /\ Forall
       (fun t =>
          Z.of_nat (level defaults (tdoc t))
          = effectiveMinLevel defaults (Some docB) no_args
          /\ level defaults docB < level defaults (tdoc t))
       [TNode docC (Some [])].
Proof.
  split; [reflexivity|].
  apply (proj2 (getChildrenTree_root_raises_minLevel
                  defaults Store.reliable chain docB no_args)).
  reflexivity.
Defined.

(** * Further properties of the plugin *)

(** ** Strings *)

Lemma str_app_empty (s : string) : s ++ "" = s.
Proof. induction s as [|c s IH]; simpl; [reflexivity | now rewrite IH]. Qed.

Lemma str_app_assoc (a b c : string) : (a ++ b) ++ c = a ++ b ++ c.
Proof. induction a as [|x a IH]; simpl; [reflexivity | now rewrite IH]. Qed.

Lemma str_length_app (a b : string) :
  String.length (a ++ b) = String.length a + String.length b.
Proof. induction a as [|x a IH]; simpl; [reflexivity | now rewrite IH]. Qed.

Lemma prefix_app (p s : string) : prefix p (p ++ s) = true.
Proof.
  induction p as [|c p IH]; simpl; [now destruct s|].
  destruct (ascii_dec c c) as [_|n]; [exact IH | now elim n].
Qed.

Lemma prefix_split (p s : string) :
  prefix p s = true -> exists t, s = p ++ t.
Proof.
  revert s. induction p as [|c p IH]; intros s H.
  - now exists s.
  - destruct s as [|c' s]; simpl in H; [discriminate|].
    destruct (ascii_dec c c') as [->|]; [|discriminate].
    destruct (IH s H) as [t ->]. now exists t.
Qed.

Lemma prefix_app_more (p s t : string) :
  prefix p s = true -> prefix p (s ++ t) = true.
Proof.
  intros H. destruct (prefix_split p s H) as [u ->].
  rewrite str_app_assoc. apply prefix_app.
Qed.

Lemma prefix_of_prefix (p q s : string) :
  prefix (p ++ q) s = true -> prefix p s = true.
Proof.
  intros H. destruct (prefix_split _ _ H) as [u ->].
  rewrite str_app_assoc. apply prefix_app.
Qed.

Lemma substr_app (p t : string) : Js.substr (String.length p) (p ++ t) = t.
Proof.
  unfold Js.substr. rewrite str_length_app.
  replace (String.length p + String.length t - String.length p)
    with (String.length t) by lia.
  induction p as [|c p IH]; simpl.
  - induction t as [|c t IHt]; simpl; [reflexivity | now rewrite IHt].
  - exact IH.
Qed.

Lemma includes_prefix (p s : string) :
  prefix p s = true -> Js.includes p s = true.
Proof. intros H. destruct s; cbn [Js.includes]; now rewrite H. Qed.

Lemma includes_app_r (p s t : string) :
  Js.includes p t = true -> Js.includes p (s ++ t) = true.
Proof.
  intros H. induction s as [|c s IH]; [exact H|].
  change (String c s ++ t) with (String c (s ++ t)). cbn [Js.includes].
  destruct (prefix p (String c (s ++ t))); [reflexivity | exact IH].
Qed.

Lemma includes_app_l (p s t : string) :
  Js.includes p s = true -> Js.includes p (s ++ t) = true.
Proof.
  induction s as [|c s IH]; intros H.
  - cbn [Js.includes] in H. destruct (prefix p "") eqn:E; [|discriminate].
    apply includes_prefix. change t with ("" ++ t). now apply prefix_app_more.
  - cbn [Js.includes] in H. destruct (prefix p (String c s)) eqn:E.
    + apply includes_prefix. now apply prefix_app_more.
    + change (String c s ++ t) with (String c (s ++ t)). cbn [Js.includes].
      destruct (prefix p (String c (s ++ t))); [reflexivity|].
      now apply IH.
Qed.

(** ** Levels *)

Lemma split_append_sep (sep : ascii) (a b : string) :
  Js.split sep (a ++ String sep b) = (Js.split sep a ++ Js.split sep b)%list.
Proof.
  induction a as [|c a IH]; simpl.
  - now rewrite Ascii.eqb_refl.
  - destruct (Ascii.eqb c sep); rewrite IH; [reflexivity|].
    pose proof (split_not_nil sep a) as Hne.
    destruct (Js.split sep a) as [|h t]; [contradiction | reflexivity].
Qed.

Lemma split_length (sep : ascii) (s : string) :
  List.length (Js.split sep s) = S (occurrences sep s).
Proof.
  induction s as [|c s IH]; simpl; [reflexivity|].
  destruct (Ascii.eqb c sep); simpl; [now rewrite IH|].
  pose proof (split_not_nil sep s) as Hne.
  destruct (Js.split sep s) as [|h t]; [contradiction|].
  simpl in *. exact IH.
Qed.

Lemma occurrences_app (c : ascii) (a b : string) :
  occurrences c (a ++ b) = occurrences c a + occurrences c b.
Proof.
  induction a as [|x a IH]; simpl; [reflexivity|].
  destruct (Ascii.eqb x c); simpl; now rewrite IH.
Qed.

(** X14.  The level of a node is 0 for an empty ancestry and otherwise one
    more than the number of separators in the ancestry. *)
Theorem getLevel_counts_separators (o : options) (s : string) :
  getLevel o (Some s)
  = if s =? "" then 0 else S (occurrences (ancestrySeparator o) s).
Proof.
  unfold getLevel. simpl. destruct (s =? ""); simpl; [reflexivity|].
  apply split_length.
Qed.

Lemma truthy_pathOf o d : _id d <> "" -> Js.truthy (Some (pathOf o d)) = true.
Proof.
  intros Hid. unfold pathOf. destruct (Js.truthy (ancestry d)) eqn:E.
  - apply truthy_Some in E as [a [Ea Hne]]. rewrite Ea. simpl.
    destruct a; [contradiction | reflexivity].
  - simpl. apply negb_true_iff. now apply String.eqb_neq.
Qed.

Lemma level_pathOf o d self :
  _id d <> "" ->
  occurrences (ancestrySeparator o) (_id d) = 0 ->
  level o (set_ancestry (Some (pathOf o d)) self) = S (level o d).
Proof.
  intros Hid Hsep. unfold level. simpl ancestry.
  unfold getLevel at 1. rewrite (truthy_pathOf o d Hid). simpl Js.js_str.
  rewrite split_length. f_equal.
  unfold pathOf, getLevel. destruct (Js.truthy (ancestry d)) eqn:E.
  - rewrite split_length. unfold Js.chr. simpl String.append.
    rewrite occurrences_app. simpl. rewrite Ascii.eqb_refl. lia.
  - exact Hsep.
Qed.

(** ** The store *)

Lemma id_eqb_eq (a b : option string) : Store.id_eqb a b = true <-> a = b.
Proof.
  destruct a as [x|], b as [y|]; simpl; split; intros H;
    try discriminate; try reflexivity.
  - apply String.eqb_eq in H. now subst.
  - injection H as ->. apply String.eqb_refl.
Qed.

Lemma findOne_found F db id doc :
  Store.findOne F db id = inr (Some doc) -> In doc db /\ id = Some (_id doc).
Proof.
  unfold Store.findOne. destruct (F (Store.FindOne id)); [discriminate|].
  intros H. injection H as H. apply find_some in H as [Hin Heq].
  apply (id_eqb_eq (Some (_id doc)) id) in Heq.
  split; [exact Hin | now symmetry].
Qed.

Lemma update_first_map {B} (g : node -> B) id f db :
  (forall d, g (f d) = g d) ->
  map g (Store.update_first id f db) = map g db.
Proof.
  intros Hg. induction db as [|d db IH]; simpl; [reflexivity|].
  destruct (_id d =? id); simpl; [now rewrite Hg | now rewrite IH].
Qed.

Lemma store_update_map {B} (g : node -> B) F db id f c db' :
  (forall d, g (f d) = g d) ->
  store_step (Store.update F db id f) db = (c, db') ->
  map g db' = map g db.
Proof.
  intros Hg. unfold Store.update. destruct (F (Store.Update id)); simpl;
    intros H; injection H as _ <-; [reflexivity|].
  now apply update_first_map.
Qed.

(** What every step of a bulk rewrite keeps, the whole rewrite keeps. *)
Lemma streamWorker_keeps (Inv : Store.collection -> Prop) work :
  (forall doc db c db', work doc db = (c, db') -> Inv db -> Inv db') ->
  forall items db c db',
    streamWorker items work db = (c, db') -> Inv db -> Inv db'.
Proof.
  intros Hw. induction items as [|doc rest IH]; intros db c db' H HI; simpl in H.
  - now injection H as _ <-.
  - destruct (work doc db) as [c1 db1] eqn:E.
    pose proof (Hw _ _ _ _ E HI) as HI1.
    destruct (streamWorker rest work db1) as [c2 db2] eqn:E2.
    injection H as _ <-. exact (IH db1 c2 db2 E2 HI1).
Qed.

Lemma streamCursor_keeps (Inv : Store.collection -> Prop) work :
  (forall doc db c db', work doc db = (c, db') -> Inv db -> Inv db') ->
  forall cursor db c db',
    streamCursor cursor work db = (c, db') -> Inv db -> Inv db'.
Proof.
  intros Hw [err|items] db c db' H HI; simpl in H.
  - now injection H as _ <-.
  - exact (streamWorker_keeps Inv work Hw items db c db' H HI).
Qed.


Lemma truthy_found_parent F db self doc :
  Js.truthy (parent self) = true ->
  Store.findOne F db (parent self) = inr (Some doc) ->
  _id doc <> "".
Proof.
  intros Hp Hf. apply findOne_found in Hf as [_ Hid]. rewrite Hid in Hp.
  simpl in Hp. intros E. rewrite E in Hp. discriminate.
Qed.

Lemma new_ancestry_is_path o (doc self : node) :
  (if Js.truthy (ancestry doc)
   then set_ancestry
          (Some (Js.js_str (ancestry doc)
                 ++ Js.chr (ancestrySeparator o) ++ _id doc)) self
   else set_ancestry (Some (_id doc)) self)
  = set_ancestry (Some (pathOf o doc)) self.
Proof. unfold pathOf. now destruct (Js.truthy (ancestry doc)). Qed.

Lemma filter_none {A} (p : A -> bool) (l : list A) :
  (forall x, In x l -> p x = false) -> filter p l = [].
Proof.
  induction l as [|x l IH]; intros H; simpl; [reflexivity|].
  rewrite (H x) by now left. apply IH. intros y Hy. apply H. now right.
Qed.

(** X1.  Saving a new node (it has no ancestry yet) whose parent is in the
    store, whether or not the parent is reported as modified: when no
    stored ancestry begins with the text [undefined] followed by the
    separator, the hook calls [next()], leaves the collection as it is and
    gives the node the path of the parent as ancestry; when the identifier
    of the parent holds no separator, the level of the node is the level of
    the parent plus one. *)
Theorem preSave_new_child o F db self doc isParentChange :
  Js.truthy (parent self) = true ->
  ancestry self = None ->
  Store.findOne F db (parent self) = inr (Some doc) ->
  F (Store.FindRegex true "undefined") = None ->
  inert_char (ancestrySeparator o) = true ->
  (forall d, In d db ->
             Store.regex_test true "undefined" (ancestrySeparator o)
               (ancestry d) = false) ->
  occurrences (ancestrySeparator o) (_id doc) = 0 ->
  preSave o F db self true isParentChange
  = (Done, set_ancestry (Some (pathOf o doc)) self, db)
  /\ level o (set_ancestry (Some (pathOf o doc)) self) = S (level o doc).
Proof.
  intros Hp Ha Hf Hfind _ Hnone Hsep. split.
  - unfold preSave. rewrite Hp, Hf, Ha. cbv zeta.
    rewrite new_ancestry_is_path. destruct isParentChange; [|reflexivity].
    unfold Store.findRegex. simpl Js.js_str. rewrite Hfind.
    rewrite (filter_none _ db Hnone). reflexivity.
  - apply level_pathOf; [|exact Hsep]. exact (truthy_found_parent _ _ _ _ Hp Hf).
Qed.

Lemma preSave_new_child_witness :
  preSave defaults Store.reliable chain (Node "d" (Some "c") None) true true
  = (Done,
     set_ancestry (Some (pathOf defaults docC)) (Node "d" (Some "c") None),
     chain)
  /\ level defaults
       (set_ancestry (Some (pathOf defaults docC)) (Node "d" (Some "c") None))
     = S (level defaults docC).
Proof.
  apply (preSave_new_child defaults Store.reliable chain
           (Node "d" (Some "c") None) docC true); try reflexivity.
  intros d [<-|[<-|[<-|[]]]]; reflexivity.
Defined.

(** X4.  Whatever the store answers and however the hook ends, the pre-save
    hook changes nothing but ancestries: the node keeps its identifier and
    its parent, and the collection keeps its documents, with their
    identifiers and parents, in their places. *)
Theorem preSave_keeps_identifiers_and_parents o F db self isNew isParentChange :
  _id (snd (fst (preSave o F db self isNew isParentChange))) = _id self
  /\ parent (snd (fst (preSave o F db self isNew isParentChange))) = parent self
  /\ map _id (snd (preSave o F db self isNew isParentChange)) = map _id db
  /\ map parent (snd (preSave o F db self isNew isParentChange))
     = map parent db.
Proof.
  unfold preSave.
  destruct (isNew || isParentChange); [|now repeat split].
  destruct (negb (Js.truthy (parent self))); [now repeat split|].
  destruct (Store.findOne F db (parent self)) as [err|[doc|]];
    [now repeat split | | now repeat split].
  cbv zeta. rewrite new_ancestry_is_path.
  destruct isParentChange; [|now repeat split].
  match goal with
  | |- context [streamCursor ?cur ?w db] =>
      destruct (streamCursor cur w db) as [c db'] eqn:E;
      pose proof (streamCursor_keeps
                    (fun x => map _id x = map _id db
                              /\ map parent x = map parent db) w) as HK
  end.
  simpl. repeat split; try reflexivity; eapply HK; try exact E; auto.
  all: intros d0 db0 c0 db0' Hw [H1 H2];
    destruct (ancestry self);
    [ split;
      [ rewrite <- H1; eapply store_update_map; [|exact Hw]; reflexivity
      | rewrite <- H2; eapply store_update_map; [|exact Hw]; reflexivity ]
    | injection Hw as _ <-; now split ].
Qed.



Lemma pathOf_with_ancestry o d a :
  ancestry d = Some a -> a <> "" ->
  pathOf o d = a ++ Js.chr (ancestrySeparator o) ++ _id d.
Proof.
  intros Ha Hne. unfold pathOf. rewrite Ha. simpl.
  destruct a; [contradiction | reflexivity].
Qed.

Lemma regex_test_below o a i rest :
  Store.regex_test true a (ancestrySeparator o)
    (Some ((a ++ Js.chr (ancestrySeparator o) ++ i) ++ rest)) = true.
Proof.
  unfold Store.regex_test.
  replace ((a ++ Js.chr (ancestrySeparator o) ++ i) ++ rest)
    with ((a ++ Js.chr (ancestrySeparator o)) ++ i ++ rest)
    by now rewrite !str_app_assoc.
  apply prefix_app.
Qed.

(** X2.  After a parent change saved on a reliable store, every stored
    document whose ancestry is the old path of the node followed by some
    rest (a child when the rest is empty, a deeper descendant otherwise)
    carries the new path of the node followed by the same rest.  The node
    must have had an ancestry, the identifiers must be unique, and the old
    ancestry and the separator must stand for themselves in a regular
    expression. *)
Theorem preSave_moves_the_subtree o db self isNew doc prev d rest :
  regex_inert prev = true ->
  inert_char (ancestrySeparator o) = true ->
  NoDup (map _id db) ->
  Js.truthy (parent self) = true ->
  Store.findOne Store.reliable db (parent self) = inr (Some doc) ->
  ancestry self = Some prev ->
  prev <> "" ->
  In d db ->
  ancestry d = Some (pathOf o self ++ rest) ->
  In (set_ancestry
        (Some (pathOf o (set_ancestry (Some (pathOf o doc)) self) ++ rest)) d)
     (snd (preSave o Store.reliable db self isNew true)).
Proof.
  intros _ _ Hnd Hp Hf Hprev Hne Hin Hd.
  rewrite (preSave_parent_change_rewrite o db self isNew doc prev Hnd Hp Hf Hprev).
  simpl snd.
  rewrite (pathOf_with_ancestry o self prev Hprev Hne) in Hd.
  pose proof (truthy_found_parent _ _ _ _ Hp Hf) as Hid.
  assert (Hnew : pathOf o (set_ancestry (Some (pathOf o doc)) self)
                 = pathOf o doc ++ Js.chr (ancestrySeparator o) ++ _id self).
  { apply (pathOf_with_ancestry o (set_ancestry (Some (pathOf o doc)) self)
             (pathOf o doc) eq_refl).
    pose proof (truthy_pathOf o doc Hid) as Ht. simpl in Ht.
    intros E. rewrite E in Ht. discriminate. }
  rewrite Hnew.
  apply in_map_iff. exists d. split; [|exact Hin].
  rewrite Hd, regex_test_below. simpl Js.js_str.
  rewrite (str_app_assoc prev), substr_app, !str_app_assoc. reflexivity.
Qed.

Lemma preSave_moves_the_subtree_witness :
  In (set_ancestry
        (Some (pathOf defaults
                 (set_ancestry (Some (pathOf defaults docX))
                    (Node "n" (Some "x") (Some "p")))
               ++ "/k")) docG)
     (snd (preSave defaults Store.reliable (family ++ [docX])%list
             (Node "n" (Some "x") (Some "p")) false true)).
Proof.
  apply (preSave_moves_the_subtree defaults (family ++ [docX])%list
           (Node "n" (Some "x") (Some "p")) false docX "p" docG "/k");
    try reflexivity.
  - repeat constructor; simpl; intuition discriminate.
  - discriminate.
  - simpl. tauto.
Defined.

(** X3.  A save that reports a parent change although the ancestry of the
    node already is the path of its parent changes nothing: the node and
    every stored document are left as they were (the bulk rewrite writes each
    selected ancestry back unchanged).  The ancestry and the separator must
    stand for themselves in a regular expression. *)
Theorem preSave_same_parent_changes_nothing o db self isNew doc :
  regex_inert (pathOf o doc) = true ->
  inert_char (ancestrySeparator o) = true ->
  NoDup (map _id db) ->
  Js.truthy (parent self) = true ->
  Store.findOne Store.reliable db (parent self) = inr (Some doc) ->
  ancestry self = Some (pathOf o doc) ->
  preSave o Store.reliable db self isNew true = (Done, self, db).
Proof.
  intros _ _ Hnd Hp Hf Hprev.
  rewrite (preSave_parent_change_rewrite o db self isNew doc _ Hnd Hp Hf Hprev).
  f_equal; [f_equal|].
  - destruct self as [i p a]. simpl in *. now rewrite Hprev.
  - rewrite <- (map_id db) at 2. apply map_ext. intros d.
    destruct (Store.regex_test true (pathOf o doc) (ancestrySeparator o)
                (ancestry d)) eqn:E; [|reflexivity].
    destruct d as [i p [a|]]; simpl in E; [|discriminate].
    apply prefix_of_prefix in E. apply prefix_split in E as [t ->].
    unfold set_ancestry. simpl. now rewrite substr_app.
Qed.

Lemma preSave_same_parent_changes_nothing_witness :
  preSave defaults Store.reliable family docN false true
  = (Done, docN, family).
Proof.
  apply (preSave_same_parent_changes_nothing defaults family docN false docP);
    try reflexivity.
  repeat constructor; simpl; intuition discriminate.
Defined.

(** X6.  Removing, under the DELETE policy and on a reliable store, a node
    that has an ancestry: the removal completes; the documents left are
    documents of the collection, unchanged; the node is gone; every document
    whose ancestry begins with the path of the node (its children and deeper
    descendants) is gone; and every other document whose ancestry does not
    begin with the ancestry of the node followed by the separator stays.
    The ancestry of the node and the separator must stand for themselves in
    a regular expression. *)
Theorem remove_DELETE_effect o db self a :
  regex_inert a = true ->
  inert_char (ancestrySeparator o) = true ->
  ancestry self = Some a ->
  a <> "" ->
  onDelete o = "DELETE" ->
  exists db',
    remove o Store.reliable db self = (Done, db')
    /\ (forall d, In d db' -> In d db)
    /\ ~ In (_id self) (map _id db')
    /\ (forall d rest,
          ancestry d = Some (pathOf o self ++ rest) -> ~ In d db')
    /\ (forall d,
          In d db -> _id d <> _id self ->
          Store.regex_test true a (ancestrySeparator o) (ancestry d) = false ->
          In d db').
Proof.
  intros _ _ Ha Hne Hd.
  assert (Ht : Js.truthy (ancestry self) = true).
  { rewrite Ha. simpl. destruct a; [contradiction | reflexivity]. }
  rewrite (remove_DELETE_selection o db self Ht Hd). rewrite Ha. simpl Js.js_str.
  eexists. split; [reflexivity|]. repeat split.
  - intros d H. apply filter_In in H as [H _]. apply filter_In in H. tauto.
  - intros H. apply in_map_iff in H as [d [Hid H]].
    apply filter_In in H as [_ H]. rewrite Hid, String.eqb_refl in H.
    discriminate.
  - intros d rest Hanc H. apply filter_In in H as [H _].
    apply filter_In in H as [_ H].
    rewrite Hanc, (pathOf_with_ancestry o self a Ha Hne), regex_test_below in H.
    discriminate.
  - intros d Hin Hid Hsel. apply filter_In. split.
    + apply filter_In. split; [exact Hin | now rewrite Hsel].
    + apply negb_true_iff. now apply String.eqb_neq.
Qed.

Lemma remove_DELETE_effect_witness :
  exists db',
    remove defaults Store.reliable family docN = (Done, db')
    /\ (forall d, In d db' -> In d family)
    /\ ~ In (_id docN) (map _id db')
    /\ (forall d rest,
          ancestry d = Some (pathOf defaults docN ++ rest) -> ~ In d db')
    /\ (forall d,
          In d family -> _id d <> _id docN ->
          Store.regex_test true "p" (ancestrySeparator defaults) (ancestry d)
          = false ->
          In d db').
Proof.
  apply (remove_DELETE_effect defaults family docN "p");
    [reflexivity | reflexivity | reflexivity | discriminate | reflexivity].
Defined.

Lemma preRemove_REPARENT_ids o F db self :
  (onDelete o =? "DELETE") = false ->
  map _id (snd (preRemove o F db self)) = map _id db.
Proof.
  intros Hd. unfold preRemove.
  destruct (negb (Js.truthy (ancestry self))); [reflexivity|]. rewrite Hd.
  cbv zeta.
  match goal with
  | |- context [streamCursor ?cur ?w db] =>
      destruct (streamCursor cur w db) as [c db1] eqn:E1;
      assert (H1 : map _id db1 = map _id db)
        by (eapply (streamCursor_keeps (fun x => map _id x = map _id db) w);
            [|exact E1|reflexivity];
            intros d0 db0 c0 db0' Hw H0; rewrite <- H0;
            eapply store_update_map; [|exact Hw]; reflexivity)
  end.
  destruct c; try exact H1.
  match goal with
  | |- context [streamCursor ?cur ?w db1] =>
      destruct (streamCursor cur w db1) as [c db2] eqn:E2;
      assert (H2 : map _id db2 = map _id db)
        by (eapply (streamCursor_keeps (fun x => map _id x = map _id db) w);
            [|exact E2|exact H1];
            intros d0 db0 c0 db0' Hw H0; rewrite <- H0;
            eapply store_update_map; [|exact Hw]; reflexivity)
  end.
  exact H2.
Qed.

Lemma map_id_filter (i : string) (db : list node) :
  map _id (filter (fun d => negb (_id d =? i)) db)
  = filter (fun x => negb (x =? i)) (map _id db).
Proof.
  induction db as [|d db IH]; simpl; [reflexivity|].
  destruct (_id d =? i); simpl; now rewrite IH.
Qed.

(** X7.  Under a policy other than DELETE the hook deletes nothing,
    whatever the store answers: after a removal that completed, the
    identifiers stored are those of before without the identifier of the
    node, in the same order; after a removal that failed, they are those of
    before. *)
Theorem remove_REPARENT_deletes_only_the_node o F db self :
  (onDelete o =? "DELETE") = false ->
  map _id (snd (remove o F db self))
  = match fst (remove o F db self) with
    | Done => filter (fun x => negb (x =? _id self)) (map _id db)
    | _ => map _id db
    end.
Proof.
  intros Hd. pose proof (preRemove_REPARENT_ids o F db self Hd) as H.
  unfold remove. destruct (preRemove o F db self) as [[| |] db']; simpl in *;
    try exact H.
  now rewrite map_id_filter, H.
Qed.

Lemma remove_REPARENT_deletes_only_the_node_witness :
  map _id (snd (remove reparentOptions stage2FindFails family docN))
  = match fst (remove reparentOptions stage2FindFails family docN) with
    | Done => filter (fun x => negb (x =? _id docN)) (map _id family)
    | _ => map _id family
    end.
Proof.
  apply (remove_REPARENT_deletes_only_the_node reparentOptions
           stage2FindFails family docN).
  reflexivity.
Defined.

(** X9.  Under either policy and whatever the store answers: a removal that
    completes leaves no document with the identifier of the node, and a
    removal that does not complete (an error handed to [next], or an
    exception) deletes no document at all. *)
Theorem remove_all_or_nothing o F db self :
  (fst (remove o F db self) = Done ->
   ~ In (_id self) (map _id (snd (remove o F db self))))
  /\ (fst (remove o F db self) <> Done ->
      map _id (snd (remove o F db self)) = map _id db).
Proof.
  unfold remove. destruct (preRemove o F db self) as [c db'] eqn:E.
  destruct c; simpl; split; intros H; try discriminate; try contradiction.
  - intros Hin. apply in_map_iff in Hin as [d [Hid Hin]].
    apply filter_In in Hin as [_ Hin]. rewrite Hid, String.eqb_refl in Hin.
    discriminate.
  - clear H. destruct (onDelete o =? "DELETE") eqn:Hd.
    + unfold preRemove in E. rewrite Hd in E.
      destruct (negb (Js.truthy (ancestry self))); [discriminate|].
      unfold Store.remove, store_step in E.
      destruct (F (Store.Remove _)); [|discriminate].
      now injection E as _ <-.
    + pose proof (preRemove_REPARENT_ids o F db self Hd) as H.
      now rewrite E in H.
  - clear H. destruct (onDelete o =? "DELETE") eqn:Hd.
    + unfold preRemove in E. rewrite Hd in E.
      destruct (negb (Js.truthy (ancestry self))); [discriminate|].
      unfold Store.remove, store_step in E.
      destruct (F (Store.Remove _)); discriminate.
    + pose proof (preRemove_REPARENT_ids o F db self Hd) as H.
      now rewrite E in H.
Qed.

Lemma remove_all_or_nothing_witness :
  (fst (remove defaults Store.reliable family docN) = Done ->
   ~ In (_id docN)
       (map _id (snd (remove defaults Store.reliable family docN))))
  /\ (fst (remove defaults Store.reliable family docN) <> Done ->
      map _id (snd (remove defaults Store.reliable family docN))
      = map _id family).
Proof.
  exact (remove_all_or_nothing defaults Store.reliable family docN).
Defined.

(** ** Errors in the REPARENT removal *)







(** X8.  Removing, under the REPARENT policy and on a reliable store, a node
    that has an ancestry: the removal completes, no document left has the
    node as its parent, and every former child is still there with the parent
    of the node as its parent. *)
Theorem remove_REPARENT_leaves_no_child_behind o db self :
  NoDup (map _id db) ->
  Js.truthy (ancestry self) = true ->
  (onDelete o =? "DELETE") = false ->
  parent self <> Some (_id self) ->
  exists db',
    remove o Store.reliable db self = (Done, db')
    /\ (forall d', In d' db' -> parent d' <> Some (_id self))
    /\ (forall d,
          In d db -> parent d = Some (_id self) -> _id d <> _id self ->
          exists d', In d' db' /\ _id d' = _id d /\ parent d' = parent self).
Proof.
  intros Hnd Ha Hd Hself. unfold remove.
  rewrite (preRemove_REPARENT_rewrite o db self Hnd Ha Hd).
  eexists. split; [reflexivity|]. split.
  - intros d' H. apply filter_In in H as [H _].
    apply in_map_iff in H as [d1 [<- H]]. apply in_map_iff in H as [d [<- H]].
    assert (Hp : parent (if Store.id_eqb (parent d) (Some (_id self))
                         then set_parent (parent self) d else d)
                 <> Some (_id self)).
    { destruct (Store.id_eqb (parent d) (Some (_id self))) eqn:E;
        [exact Hself|].
      intros Hp. apply id_eqb_eq in Hp. rewrite Hp in E. discriminate. }
    match goal with |- parent (if ?c then _ else _) <> _ => destruct c end;
      exact Hp.
  - intros d Hin Hp Hid. eexists. split; [|split].
    + apply filter_In. split.
      * apply in_map. apply in_map. exact Hin.
      * apply negb_true_iff. apply String.eqb_neq.
        match goal with |- _id (if ?c then _ else _) <> _ => destruct c end;
          destruct (Store.id_eqb (parent d) (Some (_id self))); exact Hid.
    + match goal with |- _id (if ?c then _ else _) = _ => destruct c end;
        destruct (Store.id_eqb (parent d) (Some (_id self))); reflexivity.
    + assert (E : Store.id_eqb (parent d) (Some (_id self)) = true)
        by now apply id_eqb_eq.
      rewrite E.
      match goal with |- parent (if ?c then _ else _) = _ => destruct c end;
        reflexivity.
Qed.

Lemma remove_REPARENT_leaves_no_child_behind_witness :
  exists db',
    remove reparentOptions Store.reliable family docN = (Done, db')
    /\ (forall d', In d' db' -> parent d' <> Some (_id docN))
    /\ (forall d,
          In d family -> parent d = Some (_id docN) -> _id d <> _id docN ->
          exists d', In d' db' /\ _id d' = _id d /\ parent d' = parent docN).
Proof.
  apply (remove_REPARENT_leaves_no_child_behind reparentOptions family docN);
    try reflexivity.
  - repeat constructor; simpl; intuition discriminate.
  - discriminate.
Defined.

Lemma obj_set_In {V} (k : string) (c : V) (ob : obj V) :
  In (k, c) (obj_set k c ob).
Proof.
  induction ob as [|[k' c'] ob IH]; simpl; [now left|].
  destruct (k' =? k) eqn:E.
  - apply String.eqb_eq in E. subst. now left.
  - now right.
Qed.

Lemma removelast_In {A} (x : A) (l : list A) : In x (removelast l) -> In x l.
Proof.
  induction l as [|y l IH]; simpl; [tauto|].
  destruct l as [|z l]; [tauto|].
  intros [->|H]; [now left | right; now apply IH].
Qed.

Lemma existsb_eqb_In (s : string) (l : list string) :
  existsb (String.eqb s) l = true -> In s l.
Proof.
  intros H. apply existsb_exists in H as [x [Hin E]].
  apply String.eqb_eq in E. now subst.
Qed.

Lemma getAncestors_conditions o self f :
  In ("_id", InIds (getAncestors_ids o self))
     (conditions (getAncestors o self f)).
Proof.
  unfold getAncestors, conditions.
  destruct f as [[[q|] ow]|]; simpl; first [apply obj_set_In | now left].
Qed.

(** X11.  Whatever the caller's filters, a document that [getAncestors]
    returns is a stored document whose identifier is one of the segments of
    the ancestry of the node; and no document is returned unless the node is
    at level 2 or deeper (a root and a child of a root get none). *)
Theorem getAncestors_results_are_listed o db self f d :
  In d (find o db (getAncestors o self f)) ->
  In d db
  /\ Js.truthy (ancestry self) = true
  /\ In (_id d)
       (Js.split (ancestrySeparator o) (Js.js_str (ancestry self)))
  /\ 2 <= level o self.
Proof.
  intros H. unfold find in H. apply filter_In in H as [Hin Hs].
  unfold satisfies in Hs. rewrite forallb_forall in Hs.
  specialize (Hs _ (getAncestors_conditions o self f)). simpl in Hs.
  apply existsb_eqb_In in Hs. unfold getAncestors_ids in Hs.
  destruct (Js.truthy (ancestry self)) eqn:Ht; [|contradiction].
  repeat split; try assumption.
  - now apply removelast_In.
  - destruct (getAncestors_ids_one_short o self Ht) as [E1 E2].
    unfold getAncestors_ids in E2. rewrite Ht in E2.
    destruct (Js.pop (Js.split (ancestrySeparator o)
                        (Js.js_str (ancestry self)))); [contradiction|].
    simpl in E2. lia.
Qed.

Lemma getAncestors_results_are_listed_witness :
  In docA chain
  /\ Js.truthy (ancestry docC) = true
  /\ In (_id docA)
       (Js.split (ancestrySeparator defaults) (Js.js_str (ancestry docC)))
  /\ 2 <= level defaults docC.
Proof.
  apply (getAncestors_results_are_listed defaults chain docC None docA).
  simpl. tauto.
Defined.

Lemma find_app_l {A} (p : A -> bool) (l l' : list A) (x : A) :
  List.find p l = Some x -> List.find p (l ++ l')%list = Some x.
Proof.
  induction l as [|y l IH]; simpl; [discriminate|].
  destruct (p y); [tauto | exact IH].
Qed.

Lemma existsb_id_false (i : string) (db : list node) :
  ~ In i (map _id db) -> existsb (fun d => _id d =? i) db = false.
Proof.
  intros H. destruct (existsb (fun d => _id d =? i) db) eqn:E; [|reflexivity].
  apply existsb_exists in E as [d [Hin Hd]]. apply String.eqb_eq in Hd.
  elim H. rewrite <- Hd. now apply in_map.
Qed.

(** X12.  A new node (it has no ancestry yet) saved under a parent that is
    in the store, whether or not the parent is reported as modified: when no
    stored ancestry begins with the text [undefined] followed by the
    separator, the node is inserted with the path of the parent as ancestry;
    [getParent] on the saved node then answers the parent, and [getChildren]
    on the parent (without [recursive]) returns the saved node. *)
Theorem save_then_getParent_and_getChildren o db self doc isParentChange :
  Js.truthy (parent self) = true ->
  ancestry self = None ->
  Store.findOne Store.reliable db (parent self) = inr (Some doc) ->
  inert_char (ancestrySeparator o) = true ->
  (forall d, In d db ->
             Store.regex_test true "undefined" (ancestrySeparator o)
               (ancestry d) = false) ->
  ~ In (_id self) (map _id db) ->
  exists child,
    save o Store.reliable db self true isParentChange
    = (Done, child, (db ++ [child])%list)
    /\ ancestry child = Some (pathOf o doc)
    /\ getParent Store.reliable (db ++ [child])%list child = inr (Some doc)
    /\ In child (find o (db ++ [child])%list (getChildren doc None None)).
Proof.
  intros Hp Ha Hf _ Hnone Hfresh.
  exists (set_ancestry (Some (pathOf o doc)) self).
  assert (Hsave : preSave o Store.reliable db self true isParentChange
                  = (Done, set_ancestry (Some (pathOf o doc)) self, db)).
  { unfold preSave. rewrite Hp, Hf, Ha. cbv zeta.
    rewrite new_ancestry_is_path. destruct isParentChange; [|reflexivity].
    unfold Store.findRegex. simpl Js.js_str.
    change (Store.reliable (Store.FindRegex true "undefined"))
      with (@None string).
    cbv iota. rewrite (filter_none _ db Hnone). reflexivity. }
  split; [|split; [reflexivity|split]].
  - unfold save. rewrite Hsave. unfold write. simpl _id.
    now rewrite (existsb_id_false _ _ Hfresh).
  - unfold getParent, Store.findOne in *. simpl in *.
    injection Hf as Hf. f_equal. now apply find_app_l.
  - unfold find. apply filter_In. split; [apply in_or_app; right; now left|].
    apply findOne_found in Hf as [_ Hid].
    unfold satisfies, getChildren, conditions. simpl.
    change (field "parent" (set_ancestry (Some (pathOf o doc)) self))
      with (parent self).
    rewrite Hid. simpl. now rewrite String.eqb_refl.
Qed.

Lemma save_then_getParent_and_getChildren_witness :
  exists child,
    save defaults Store.reliable chain (Node "d" (Some "c") None) true true
    = (Done, child, (chain ++ [child])%list)
    /\ ancestry child = Some (pathOf defaults docC)
    /\ getParent Store.reliable (chain ++ [child])%list child
       = inr (Some docC)
    /\ In child
         (find defaults (chain ++ [child])%list (getChildren docC None None)).
Proof.
  apply (save_then_getParent_and_getChildren defaults chain
           (Node "d" (Some "c") None) docC true); try reflexivity.
  - intros d [<-|[<-|[<-|[]]]]; reflexivity.
  - simpl. intuition discriminate.
Defined.

Lemma update_last_cons {A E} (f : A -> E + A) (x y : A) (l : list A) :
  update_last f (x :: y :: l)
  = match update_last f (y :: l) with
    | inl e => inl e
    | inr l' => inr (x :: l')
    end.
Proof. reflexivity. Qed.

(** A property of the elements that [f] keeps on the last one is kept by
    [update_last]. *)
Lemma update_last_forallb {A E} (P : A -> bool) (f : A -> E + A) (l l' : list A) :
  Forall (fun x => forall x', P x = true -> f x = inr x' -> P x' = true) l ->
  forallb P l = true ->
  update_last f l = inr l' ->
  forallb P l' = true.
Proof.
  revert l'. induction l as [|x l IH]; intros l' HF Hl H.
  - simpl in H. now injection H as <-.
  - inversion HF as [|? ? Hx HF']; subst.
    simpl in Hl. apply andb_true_iff in Hl as [Hx1 Hl1].
    destruct l as [|y l].
    + simpl in H. destruct (f x) as [e|x'] eqn:Ef; [discriminate|].
      injection H as <-. simpl. now rewrite (Hx x' Hx1 eq_refl).
    + rewrite update_last_cons in H.
      destruct (update_last f (y :: l)) as [e|l''] eqn:Ef; [discriminate|].
      injection H as <-. simpl. rewrite Hx1. now apply IH.
Qed.

(** ** Levels along the depth of the forest *)

Lemma levelled_entry o ae base nd :
  Z.of_nat (level o nd) = base -> levelled o base (entry ae nd) = true.
Proof.
  intros H. unfold entry. destruct ae; simpl; apply Z.eqb_eq in H;
    now rewrite H.
Qed.

Lemma descend_levelled o m ae t : forall base nd lvl t',
  levelled o base t = true ->
  Z.of_nat (level o nd) = (base + 1 + (lvl - m))%Z ->
  descend m ae t nd lvl = inr t' ->
  levelled o base t' = true.
Proof.
  induction t as [d|d l IH] using tnode_forest_ind;
    intros base nd lvl t' Ht Hl H; [discriminate|].
  simpl in Ht. apply andb_true_iff in Ht as [Hd Hch]. simpl in H.
  destruct (lvl =? m)%Z eqn:E.
  - injection H as <-. cbn [levelled]. rewrite Hd, forallb_app, Hch.
    cbn [forallb andb].
    apply Z.eqb_eq in E. rewrite levelled_entry; [reflexivity | lia].
  - destruct (update_last (fun x => descend m ae x nd (lvl - 1)) l)
      as [e|l'] eqn:EU; [discriminate|].
    injection H as <-. simpl. rewrite Hd. simpl.
    eapply update_last_forallb; [|exact Hch|exact EU].
    eapply Forall_impl; [|exact IH]. intros x Hx x' Hpx Hfx.
    eapply Hx; [exact Hpx| |exact Hfx]. lia.
Qed.

Lemma createChildren_levelled o m ae arr nd lvl arr' :
  forallb (levelled o m) arr = true ->
  Z.of_nat (level o nd) = lvl ->
  createChildren m ae arr nd lvl = inr arr' ->
  forallb (levelled o m) arr' = true.
Proof.
  intros Ha Hl H. unfold createChildren in H.
  destruct (lvl =? m)%Z eqn:E.
  - injection H as <-. rewrite forallb_app, Ha. cbn [forallb andb].
    apply Z.eqb_eq in E. rewrite levelled_entry; [reflexivity | lia].
  - eapply update_last_forallb; [|exact Ha|exact H].
    apply Forall_forall. intros x _ x' Hpx Hfx.
    eapply descend_levelled; [exact Hpx| |exact Hfx]. lia.
Qed.

Lemma placeAll_levelled o m ae results : forall acc fr,
  forallb (levelled o m) acc = true ->
  placeAll o m ae results acc = inr fr ->
  forallb (levelled o m) fr = true.
Proof.
  induction results as [|r rest IH]; intros acc fr Ha H; simpl in H.
  - now injection H as <-.
  - destruct (createChildren m ae acc r _) as [e|acc'] eqn:E; [discriminate|].
    eapply IH; [|exact H].
    eapply createChildren_levelled; [exact Ha|reflexivity|exact E].
Qed.

(** X18.  In the forest that [getChildrenTree] hands to [next], levels
    follow depth: every top-level entry is at the effective [minLevel], and
    every entry of a [children] array is exactly one level below the entry
    the array belongs to. *)
Theorem getChildrenTree_levels_follow_depth o F db root args fr :
  getChildrenTree o F db root args = Forest fr ->
  forallb (levelled o (effectiveMinLevel o root args)) fr = true.
Proof.
  unfold getChildrenTree, assemble. destruct (F Store.Find); [discriminate|].
  destruct (placeAll o _ _ _ []) as [e|fr'] eqn:E; [discriminate|].
  intros H. injection H as <-.
  eapply placeAll_levelled; [|exact E]. reflexivity.
Qed.

Lemma getChildrenTree_levels_follow_depth_witness :
  forallb (levelled defaults (effectiveMinLevel defaults None no_args))
    [TNode docB (Some [TNode docC (Some [])])] = true.
Proof.
  apply (getChildrenTree_levels_follow_depth defaults Store.reliable chain
           None no_args).
  reflexivity.
Defined.

(** ** The forest lists the cursor *)

Lemma flat_map_last {A B} (f : A -> list B) (l : list A) (x : A) :
  flat_map f (l ++ [x]) = (flat_map f l ++ f x)%list.
Proof. rewrite flat_map_app. simpl. now rewrite app_nil_r. Qed.

Lemma update_last_flatten (f : tnode -> string + tnode) (nd : node) :
  forall l l',
    Forall (fun x => forall x', f x = inr x' ->
                     flatten x' = (flatten x ++ [nd])%list
                     \/ flatten x' = flatten x) l ->
    update_last f l = inr l' ->
    flat_map flatten l' = (flat_map flatten l ++ [nd])%list
    \/ flat_map flatten l' = flat_map flatten l.
Proof.
  induction l as [|x l IH]; intros l' HF H.
  - simpl in H. injection H as <-. now right.
  - inversion HF as [|? ? Hx HF']; subst. destruct l as [|y l].
    + simpl in H. destruct (f x) as [e|x'] eqn:E; [discriminate|].
      injection H as <-. simpl. rewrite !app_nil_r. now apply Hx.
    + rewrite update_last_cons in H.
      destruct (update_last f (y :: l)) as [e|l''] eqn:E; [discriminate|].
      injection H as <-.
      change (flat_map flatten (x :: l''))
        with (flatten x ++ flat_map flatten l'')%list.
      change (flat_map flatten (x :: y :: l))
        with (flatten x ++ flat_map flatten (y :: l))%list.
      destruct (IH l'' HF' eq_refl) as [-> | ->];
        [left; now rewrite app_assoc | now right].
Qed.

Lemma descend_flatten m ae t : forall nd lvl t',
  descend m ae t nd lvl = inr t' ->
  flatten t' = (flatten t ++ [nd])%list \/ flatten t' = flatten t.
Proof.
  induction t as [d|d l IH] using tnode_forest_ind;
    intros nd lvl t' H; [discriminate|].
  simpl in H. destruct (lvl =? m)%Z.
  - injection H as <-. left. simpl. f_equal. rewrite flat_map_last.
    f_equal. unfold entry. now destruct ae.
  - destruct (update_last (fun x => descend m ae x nd (lvl - 1)) l)
      as [e|l'] eqn:EU; [discriminate|].
    injection H as <-. simpl.
    destruct (update_last_flatten
                (fun x => descend m ae x nd (lvl - 1)) nd l l')
      as [-> | ->]; [|exact EU|now left|now right].
    eapply Forall_impl; [|exact IH]. intros x Hx x' Hfx.
    exact (Hx _ _ _ Hfx).
Qed.

Lemma createChildren_flatten m ae arr nd lvl arr' :
  createChildren m ae arr nd lvl = inr arr' ->
  flat_map flatten arr' = (flat_map flatten arr ++ [nd])%list
  \/ flat_map flatten arr' = flat_map flatten arr.
Proof.
  unfold createChildren. destruct (lvl =? m)%Z.
  - intros H. injection H as <-. left. rewrite flat_map_last.
    f_equal. unfold entry. now destruct ae.
  - apply update_last_flatten. apply Forall_forall.
    intros x _ x'. apply descend_flatten.
Qed.

Lemma subseq_refl {A} (l : list A) : subseq l l.
Proof. induction l; constructor; assumption. Qed.

Lemma subseq_app_head {A} (p l1 l2 : list A) :
  subseq l1 l2 -> subseq (p ++ l1) (p ++ l2).
Proof. intros H. induction p; simpl; [exact H | now constructor]. Qed.

Lemma placeAll_flatten o m ae results : forall acc fr,
  placeAll o m ae results acc = inr fr ->
  exists placed,
    subseq placed results
    /\ flat_map flatten fr = (flat_map flatten acc ++ placed)%list.
Proof.
  induction results as [|r rest IH]; intros acc fr H; simpl in H.
  - injection H as <-. exists []. split; [constructor | now rewrite app_nil_r].
  - destruct (createChildren m ae acc r _) as [e|acc'] eqn:E; [discriminate|].
    destruct (IH _ _ H) as [placed [Hs Hf]].
    destruct (createChildren_flatten _ _ _ _ _ _ E) as [E1|E1];
      rewrite E1 in Hf.
    + exists (r :: placed). split; [now constructor|].
      now rewrite Hf, <- app_assoc.
    + exists placed. split; [now constructor | exact Hf].
Qed.

(** X19.  The forest holds documents of the cursor only, none twice: read
    node first and children from first to last, the forest lists a
    subsequence of the cursor, in the order of the cursor. *)
Theorem getChildrenTree_lists_the_cursor_in_order o F db root args fr :
  getChildrenTree o F db root args = Forest fr ->
  subseq (flat_map flatten fr)
    (sort_docs (treeSort args) (find o db (treeFilters root args))).
Proof.
  unfold getChildrenTree, assemble. destruct (F Store.Find); [discriminate|].
  destruct (placeAll o _ _ _ []) as [e|fr'] eqn:E; [discriminate|].
  intros H. injection H as <-.
  destruct (placeAll_flatten _ _ _ _ _ _ E) as [placed [Hs ->]]. exact Hs.
Qed.

Lemma getChildrenTree_lists_the_cursor_in_order_witness :
  subseq (flat_map flatten [TNode docB (Some [TNode docC (Some [])])])
    (sort_docs (treeSort no_args)
       (find defaults chain (treeFilters None no_args))).
Proof.
  apply (getChildrenTree_lists_the_cursor_in_order defaults Store.reliable
           chain None no_args).
  reflexivity.
Defined.

(** X15.  The top-level entries of the forest that [getChildrenTree] hands
    to [next] are exactly the documents of the cursor whose level is the
    effective [minLevel], in the order of the cursor. *)
Theorem getChildrenTree_top_level_entries o F db root args fr :
  getChildrenTree o F db root args = Forest fr ->
  map tdoc fr
  = filter
      (fun r => (Z.of_nat (level o r) =? effectiveMinLevel o root args)%Z)
      (sort_docs (treeSort args) (find o db (treeFilters root args))).
Proof.
  unfold getChildrenTree. destruct (F Store.Find); [discriminate|].
  apply assemble_top_level.
Qed.

Lemma getChildrenTree_top_level_entries_witness :
  map tdoc [TNode docC (Some [])]
  = filter
      (fun r =>
         (Z.of_nat (level defaults r)
          =? effectiveMinLevel defaults (Some docB) no_args)%Z)
      (sort_docs (treeSort no_args)
         (find defaults chain (treeFilters (Some docB) no_args))).
Proof.
  apply (getChildrenTree_top_level_entries defaults Store.reliable chain
           (Some docB) no_args [TNode docC (Some [])]).
  reflexivity.
Defined.

(** X16.  With [allowEmptyChildren] true (the default), [getChildrenTree]
    never throws while it assembles the tree, whatever the cursor holds and
    in whatever order: it hands a forest to [next], or the error of [find]. *)
Theorem getChildrenTree_never_throws o F db root args :
  argAllowEmptyChildren args = true ->
  (exists fr, getChildrenTree o F db root args = Forest fr)
  \/ (exists err, F Store.Find = Some err
                  /\ getChildrenTree o F db root args = TreeFailed err).
Proof.
  intros Hae. destruct (F Store.Find) as [err|] eqn:E.
  - right. exists err. split; [reflexivity|]. unfold getChildrenTree.
    now rewrite E.
  - left. now apply getChildrenTree_returns.
Qed.

Lemma getChildrenTree_never_throws_witness :
  (exists fr,
      getChildrenTree defaults Store.reliable chain None no_args = Forest fr)
  \/ (exists err,
        Store.reliable Store.Find = Some err
        /\ getChildrenTree defaults Store.reliable chain None no_args
           = TreeFailed err).
Proof.
  apply (getChildrenTree_never_throws defaults Store.reliable chain None
           no_args).
  reflexivity.
Defined.

(** ** Without [children] arrays *)

Lemma descend_error m ae t : forall nd lvl e,
  descend m ae t nd lvl = inl e -> e = TypeError.
Proof.
  induction t as [d|d l IH] using tnode_forest_ind; intros nd lvl e H.
  - simpl in H. now injection H as <-.
  - simpl in H. destruct (lvl =? m)%Z; [discriminate|].
    destruct (update_last (fun x => descend m ae x nd (lvl - 1)) l)
      as [e'|l'] eqn:EU; [|discriminate].
    injection H as <-. clear -IH EU.
    induction l as [|x l IHl]; [discriminate|].
    inversion IH as [|? ? Hx IH']; subst. destruct l as [|y l].
    + simpl in EU. destruct (descend m ae x nd (lvl - 1)) eqn:E;
        [|discriminate].
      injection EU as <-. now apply Hx in E.
    + rewrite update_last_cons in EU.
      destruct (update_last _ (y :: l)) eqn:E; [|discriminate].
      injection EU as <-. now apply IHl.
Qed.

Lemma createChildren_error m ae arr nd lvl e :
  createChildren m ae arr nd lvl = inl e -> e = TypeError.
Proof.
  unfold createChildren. destruct (lvl =? m)%Z; [discriminate|].
  induction arr as [|x l IHl]; [discriminate|]. destruct l as [|y l].
  - simpl. destruct (descend m ae x nd (lvl - 1)) eqn:E; [|discriminate].
    intros H. injection H as <-. now apply descend_error in E.
  - rewrite update_last_cons.
    destruct (update_last _ (y :: l)) eqn:E; [|discriminate].
    intros H. injection H as <-. now apply IHl.
Qed.

Lemma placeAll_error o m ae results : forall acc e,
  placeAll o m ae results acc = inl e -> e = TypeError.
Proof.
  induction results as [|r rest IH]; intros acc e H; simpl in H;
    [discriminate|].
  destruct (createChildren m ae acc r _) as [e'|acc'] eqn:E.
  - injection H as <-. now apply createChildren_error in E.
  - now apply IH in H.
Qed.

Lemma placeAll_app o m ae l1 l2 : forall acc,
  placeAll o m ae (l1 ++ l2) acc
  = match placeAll o m ae l1 acc with
    | inl e => inl e
    | inr acc' => placeAll o m ae l2 acc'
    end.
Proof.
  induction l1 as [|r l1 IH]; intros acc; simpl; [reflexivity|].
  destruct (createChildren m ae acc r _); [reflexivity | apply IH].
Qed.

Lemma update_last_childless m ae nd lvl (l : list tnode) :
  l <> [] -> forallb childless l = true ->
  update_last (fun x => descend m ae x nd lvl) l = inl TypeError.
Proof.
  induction l as [|x l IH]; intros Hne Hl; [contradiction|].
  simpl in Hl. apply andb_true_iff in Hl as [Hx Hl]. destruct l as [|y l].
  - destruct x as [d [ch|]]; [discriminate | reflexivity].
  - rewrite update_last_cons, IH; [reflexivity | discriminate | exact Hl].
Qed.

Lemma placeAll_childless o m results : forall acc fr,
  forallb childless acc = true ->
  placeAll o m false results acc = inr fr ->
  forallb childless fr = true.
Proof.
  induction results as [|r rest IH]; intros acc fr Ha H; simpl in H.
  - now injection H as <-.
  - destruct (createChildren m false acc r _) as [e|acc'] eqn:E;
      [discriminate|].
    eapply IH; [|exact H]. unfold createChildren in E.
    destruct (_ =? m)%Z.
    + injection E as <-. rewrite forallb_app, Ha. reflexivity.
    + destruct acc as [|x acc]; [simpl in E; now injection E as <-|].
      rewrite update_last_childless in E; [discriminate..|exact Ha].
Qed.

Lemma placeAll_nested_throws o m results : forall acc r',
  forallb childless acc = true -> acc <> [] ->
  In r' results -> Z.of_nat (level o r') <> m ->
  placeAll o m false results acc = inl TypeError.
Proof.
  induction results as [|r rest IH]; intros acc r' Ha Hne Hin Hl;
    [contradiction|].
  simpl. unfold createChildren.
  destruct (Z.of_nat (getLevel o (ancestry r)) =? m)%Z eqn:E.
  - destruct Hin as [->|Hin].
    + apply Z.eqb_eq in E. contradiction.
    + apply (IH _ r'); try assumption.
      * rewrite forallb_app, Ha. reflexivity.
      * now destruct acc.
  - now rewrite update_last_childless.
Qed.

(** X17.  With [allowEmptyChildren] false no entry gets a [children] array,
    so nothing can be nested: as soon as the cursor holds a document at the
    effective [minLevel] followed, anywhere later, by a document at another
    level, the callback of [find] throws a TypeError and [next] is not
    called. *)
Theorem assemble_without_arrays_throws o root args l1 r l2 r' :
  argAllowEmptyChildren args = false ->
  Z.of_nat (level o r) = effectiveMinLevel o root args ->
  In r' l2 ->
  Z.of_nat (level o r') <> effectiveMinLevel o root args ->
  assemble o (l1 ++ r :: l2) root args = TreeUncaught TypeError.
Proof.
  intros Hae Hr Hin Hr'. unfold assemble. rewrite Hae, placeAll_app.
  destruct (placeAll o _ false l1 []) as [e|acc] eqn:E1.
  - now rewrite (placeAll_error _ _ _ _ _ _ E1).
  - pose proof (placeAll_childless o _ l1 [] acc eq_refl E1) as Hacc.
    simpl. unfold createChildren. unfold level in Hr.
    apply Z.eqb_eq in Hr. rewrite Hr.
    rewrite (placeAll_nested_throws o _ l2 _ r'); try assumption.
    + reflexivity.
    + rewrite forallb_app, Hacc. reflexivity.
    + now destruct acc.
Qed.

Lemma assemble_without_arrays_throws_witness :
  assemble defaults ([] ++ docB :: [docC]) None
    (TreeArgs None None None None (Some false))
  = TreeUncaught TypeError.
Proof.
  apply (assemble_without_arrays_throws defaults None
           (TreeArgs None None None None (Some false)) [] docB [docC] docC);
    try reflexivity.
  - simpl. tauto.
  - discriminate.
Defined.

(** ** Trees without recursion *)

Lemma insert_sorted_In keys x y l :
  In y (insert_sorted keys x l) -> y = x \/ In y l.
Proof.
  induction l as [|z l IH]; simpl.
  - intros [->|[]]. now left.
  - destruct (cmp_docs keys x z); simpl; intros [->|H]; auto;
      try (destruct H as [->|H]; auto);
      destruct (IH H) as [->|H']; auto.
Qed.

Lemma sort_docs_In keys y l : In y (sort_docs keys l) -> In y l.
Proof.
  induction l as [|x l IH]; simpl; [tauto|].
  intros H. apply insert_sorted_In in H as [->|H]; auto.
Qed.

Lemma placeAll_all_dropped o m ae results :
  (forall r, In r results -> Z.of_nat (level o r) <> m) ->
  placeAll o m ae results [] = inr [].
Proof.
  induction results as [|r rest IH]; intros H; simpl; [reflexivity|].
  unfold createChildren.
  destruct (Z.of_nat (getLevel o (ancestry r)) =? m)%Z eqn:E.
  - apply Z.eqb_eq in E. elim (H r); [now left | exact E].
  - simpl. apply IH. intros r' Hr'. apply H. now right.
Qed.

Lemma placeAll_all_top o m ae results : forall acc,
  (forall r, In r results -> Z.of_nat (level o r) = m) ->
  placeAll o m ae results acc = inr (acc ++ map (entry ae) results)%list.
Proof.
  induction results as [|r rest IH]; intros acc H; simpl.
  - now rewrite app_nil_r.
  - unfold createChildren.
    assert (E : (Z.of_nat (getLevel o (ancestry r)) =? m)%Z = true)
      by (apply Z.eqb_eq; apply H; now left).
    rewrite E, IH; [now rewrite <- app_assoc|].
    intros r' Hr'. apply H. now right.
Qed.

Lemma treeFilters_flat_clause root args :
  argRecursive args = false ->
  match arg_filters args with Some f => query f = None | None => True end ->
  In ("parent", Equals (match root with Some r => Some (_id r) | None => None end))
     (conditions (treeFilters root args)).
Proof.
  intros Hr Hq. unfold treeFilters. rewrite Hr.
  destruct (arg_filters args) as [[q ow]|]; simpl in *.
  - subst q. destruct root; unfold conditions; simpl; apply obj_set_In.
  - destruct root; unfold conditions; simpl; now left.
Qed.

Lemma flat_results_parent o db root args r :
  argRecursive args = false ->
  match arg_filters args with Some f => query f = None | None => True end ->
  In r (sort_docs (treeSort args) (find o db (treeFilters root args))) ->
  In r db
  /\ parent r = match root with Some x => Some (_id x) | None => None end.
Proof.
  intros Hr Hq H. apply sort_docs_In in H. unfold find in H.
  apply filter_In in H as [Hin Hs]. split; [exact Hin|].
  unfold satisfies in Hs. rewrite forallb_forall in Hs.
  specialize (Hs _ (treeFilters_flat_clause root args Hr Hq)).
  simpl in Hs. now apply id_eqb_eq in Hs.
Qed.

(** X23.  Without a root and with [recursive] false, [getChildrenTree]
    asks for the documents without parent; when those have no ancestry, as
    the pre-save hook leaves new roots, they are all at level 0, below the
    least [minLevel], and the forest handed to [next] is empty, whatever the
    other arguments.  (The caller's filters have no [$query] entry.) *)
Theorem getChildrenTree_flat_without_root_is_empty o F db args :
  F Store.Find = None ->
  argRecursive args = false ->
  match arg_filters args with Some f => query f = None | None => True end ->
  (forall d, In d db -> parent d = None -> Js.truthy (ancestry d) = false) ->
  getChildrenTree o F db None args = Forest [].
Proof.
  intros HF Hr Hq Hroots. unfold getChildrenTree, assemble. rewrite HF.
  rewrite placeAll_all_dropped; [reflexivity|].
  intros r Hin. destruct (flat_results_parent o db None args r Hr Hq Hin)
    as [Hdb Hp].
  unfold level, getLevel. rewrite (Hroots r Hdb Hp).
  rewrite effectiveMinLevel_max. unfold rootLevel.
  pose proof (Z.le_max_r (argMinLevel args) 1). simpl Z.of_nat. lia.
Qed.

Lemma getChildrenTree_flat_without_root_is_empty_witness :
  getChildrenTree defaults Store.reliable chain None
    (TreeArgs None None None (Some false) None)
  = Forest [].
Proof.
  apply (getChildrenTree_flat_without_root_is_empty defaults Store.reliable
           chain (TreeArgs None None None (Some false) None));
    [ reflexivity | reflexivity | exact I | ].
  intros d [<-|[<-|[<-|[]]]]; intros H; (reflexivity || discriminate).
Defined.

(** X24.  With a root and [recursive] false, [getChildrenTree] asks for the
    documents whose parent is the root; when those are one level below the
    root and the caller's [minLevel] is not larger than that level, the
    forest is the flat list of these documents in cursor order, each with an
    empty [children] array if [allowEmptyChildren], with none otherwise.
    (The caller's filters have no [$query] entry.) *)
Theorem getChildrenTree_flat_lists_the_children o F db root args :
  F Store.Find = None ->
  argRecursive args = false ->
  match arg_filters args with Some f => query f = None | None => True end ->
  (argMinLevel args <= Z.of_nat (level o root) + 1)%Z ->
  (forall d, In d db -> parent d = Some (_id root) ->
             level o d = S (level o root)) ->
  getChildrenTree o F db (Some root) args
  = Forest
      (map (entry (argAllowEmptyChildren args))
         (sort_docs (treeSort args)
            (find o db (treeFilters (Some root) args)))).
Proof.
  intros HF Hr Hq Hmin Hch. unfold getChildrenTree, assemble. rewrite HF.
  rewrite placeAll_all_top; [reflexivity|].
  intros r Hin.
  destruct (flat_results_parent o db (Some root) args r Hr Hq Hin)
    as [Hdb Hp].
  rewrite (Hch r Hdb Hp), effectiveMinLevel_max. unfold rootLevel, level in *.
  rewrite Z.max_r; lia.
Qed.

Lemma getChildrenTree_flat_lists_the_children_witness :
  getChildrenTree defaults Store.reliable chain (Some docA)
    (TreeArgs None None None (Some false) None)
  = Forest
      (map (entry (argAllowEmptyChildren
                     (TreeArgs None None None (Some false) None)))
         (sort_docs (treeSort (TreeArgs None None None (Some false) None))
            (find defaults chain
               (treeFilters (Some docA)
                  (TreeArgs None None None (Some false) None))))).
Proof.
  apply (getChildrenTree_flat_lists_the_children defaults Store.reliable
           chain docA (TreeArgs None None None (Some false) None));
    [ reflexivity | reflexivity | exact I | discriminate | ].
  intros d [<-|[<-|[<-|[]]]]; intros H; (reflexivity || discriminate).
Defined.

(** ** Cutting a segment out of an ancestry *)

Lemma replace_first_unfold (pat s : string) :
  Js.replace_first pat s
  = if prefix pat s then Js.substr (String.length pat) s
    else match s with
         | EmptyString => EmptyString
         | String c s' => String c (Js.replace_first pat s')
         end.
Proof. now destruct s. Qed.

Lemma includes_unfold (pat s : string) :
  Js.includes pat s
  = if prefix pat s then true
    else match s with
         | EmptyString => false
         | String _ s' => Js.includes pat s'
         end.
Proof. now destruct s. Qed.

(** Where [pat] matches no earlier, the first occurrence is the one cut. *)
Lemma replace_first_at (pat y : string) : forall x,
  (forall x1 x2, x = x1 ++ x2 -> x2 <> "" ->
                 prefix pat (x2 ++ pat ++ y) = false) ->
  Js.replace_first pat (x ++ pat ++ y) = x ++ y.
Proof.
  induction x as [|c x IH]; intros H.
  - simpl. rewrite replace_first_unfold, prefix_app.
    apply substr_app.
  - rewrite replace_first_unfold.
    rewrite (H "" (String c x) eq_refl) by discriminate.
    simpl. f_equal. apply IH. intros x1 x2 -> Hne.
    apply (H (String c x1) x2); [reflexivity | exact Hne].
Qed.

Lemma prefix_cases (p s z : string) :
  prefix p (s ++ z) = true ->
  prefix p s = true \/ exists u, u <> "" /\ p = s ++ u.
Proof.
  revert p. induction s as [|c s IH]; intros p H.
  - destruct p as [|a p]; [now left|]. right. exists (String a p).
    split; [discriminate | reflexivity].
  - destruct p as [|a p]; [now left|]. simpl in H.
    destruct (ascii_dec a c) as [->|]; [|discriminate].
    destruct (IH p H) as [Hp|[u [Hu ->]]].
    + left. simpl. destruct (ascii_dec c c); [exact Hp | contradiction].
    + right. exists u. now split.
Qed.

Lemma ends_with (c : ascii) : forall s t u,
  s ++ u = t ++ Js.chr c -> u <> "" -> exists u', u = u' ++ Js.chr c.
Proof.
  induction s as [|a s IH]; intros t u H Hne.
  - simpl in H. subst u. now exists t.
  - destruct t as [|b t].
    + simpl in H. injection H as _ H. destruct s; [|discriminate].
      simpl in H. contradiction.
    + simpl in H. injection H as _ H. now apply (IH t).
Qed.

Lemma no_early_match (sep : ascii) (i a y : string) :
  occurrences sep i = 0 ->
  Js.includes (i ++ Js.chr sep) (a ++ Js.chr sep) = false ->
  forall x1 x2, a ++ Js.chr sep = x1 ++ x2 -> x2 <> "" ->
                prefix (i ++ Js.chr sep) (x2 ++ (i ++ Js.chr sep) ++ y) = false.
Proof.
  intros Hi Hinc x1 x2 Hx Hne.
  destruct (prefix (i ++ Js.chr sep) (x2 ++ (i ++ Js.chr sep) ++ y)) eqn:E;
    [|reflexivity].
  apply prefix_cases in E as [E|[u [Hu E]]].
  - rewrite Hx in Hinc. apply includes_prefix in E.
    rewrite (includes_app_r _ x1 x2 E) in Hinc. discriminate.
  - destruct (ends_with sep x1 a x2 (eq_sym Hx) Hne) as [x2' ->].
    destruct (ends_with sep (x2' ++ Js.chr sep) i u (eq_sym E) Hu) as [u' ->].
    apply (f_equal (occurrences sep)) in E.
    rewrite !occurrences_app in E. simpl in E.
    rewrite Ascii.eqb_refl in E. lia.
Qed.

(** X10.  Under the REPARENT policy, on a reliable store, the ancestry of a
    deeper descendant is spliced correctly when the identifiers do not
    overlap: if the identifier of the removed node holds no separator and,
    followed by the separator, does not occur in the ancestry of the node
    followed by the separator, then a document whose ancestry was the path
    of the node, the separator and some rest ends with the ancestry of the
    node, the separator and that rest.  The identifier of the node and the
    separator must stand for themselves in a regular expression. *)
Theorem remove_REPARENT_splices_descendants o db self a d rest :
  regex_inert (_id self) = true ->
  inert_char (ancestrySeparator o) = true ->
  NoDup (map _id db) ->
  ancestry self = Some a ->
  a <> "" ->
  (onDelete o =? "DELETE") = false ->
  occurrences (ancestrySeparator o) (_id self) = 0 ->
  Js.includes (_id self ++ Js.chr (ancestrySeparator o))
    (a ++ Js.chr (ancestrySeparator o)) = false ->
  In d db ->
  _id d <> _id self ->
  ancestry d
  = Some (pathOf o self ++ Js.chr (ancestrySeparator o) ++ rest) ->
  exists d',
    In d' (snd (remove o Store.reliable db self))
    /\ _id d' = _id d
    /\ ancestry d' = Some (a ++ Js.chr (ancestrySeparator o) ++ rest).
Proof.
  intros _ _ Hnd Ha Hne Hd Hsep Hinc Hin Hid Hanc.
  assert (Ht : Js.truthy (ancestry self) = true).
  { rewrite Ha. simpl. destruct a; [contradiction | reflexivity]. }
  unfold remove. rewrite (preRemove_REPARENT_rewrite o db self Hnd Ht Hd).
  simpl snd.
  set (sep := ancestrySeparator o) in *.
  set (pat := _id self ++ Js.chr sep) in *.
  rewrite (pathOf_with_ancestry o self a Ha Hne) in Hanc. fold sep in Hanc.
  assert (Hshape : ancestry d = Some ((a ++ Js.chr sep) ++ pat ++ rest)).
  { rewrite Hanc. unfold pat. now rewrite !str_app_assoc. }
  set (f1 := fun x => if Store.id_eqb (parent x) (Some (_id self))
                      then set_parent (parent self) x else x).
  assert (H1 : _id (f1 d) = _id d /\ ancestry (f1 d) = ancestry d).
  { unfold f1. now destruct (Store.id_eqb (parent d) (Some (_id self))). }
  destruct H1 as [H1i H1a].
  eexists. split; [|split].
  - apply filter_In. split.
    + apply in_map. apply (in_map f1). exact Hin.
    + apply negb_true_iff. apply String.eqb_neq.
      fold f1. rewrite H1a.
      destruct (Store.regex_test false (_id self) sep (ancestry d));
        simpl; now rewrite H1i.
  - fold f1. rewrite H1a.
    destruct (Store.regex_test false (_id self) sep (ancestry d));
      simpl; exact H1i.
  - fold f1. rewrite H1a, Hshape.
    assert (Hm : Store.regex_test false (_id self) sep
                   (Some ((a ++ Js.chr sep) ++ pat ++ rest)) = true).
    { simpl. fold pat. apply includes_app_r. apply includes_prefix.
      apply prefix_app. }
    rewrite Hm. simpl ancestry. simpl Js.js_str. fold pat. f_equal.
    rewrite replace_first_at; [now rewrite str_app_assoc|].
    apply no_early_match; assumption.
Qed.

Lemma remove_REPARENT_splices_descendants_witness :
  exists d',
    In d' (snd (remove reparentOptions Store.reliable family docN))
    /\ _id d' = _id docG
    /\ ancestry d'
       = Some ("p" ++ Js.chr (ancestrySeparator reparentOptions) ++ "k").
Proof.
  apply (remove_REPARENT_splices_descendants reparentOptions family docN
           "p" docG "k"); try reflexivity.
  - repeat constructor; simpl; intuition discriminate.
  - discriminate.
  - simpl. tauto.
  - discriminate.
Defined.


(** X20.  A call of [getChildrenTree] in which neither of the first two
    arguments is a function and the third is missing or falsy throws before
    anything is asked from the store: a TypeError when [args] is missing
    (its [filters] is read first), the error [no callback defined when
    calling getChildrenTree] otherwise. *)
Theorem getChildrenTree_needs_a_callback root args next :
  is_function root = false ->
  is_function args = false ->
  truthy_arg always next = false ->
  treeEntry root args next
  = inl (match args with
         | Undefined | Null => TypeError
         | _ => NoCallback
         end).
Proof.
  intros Hr Ha Hn. unfold treeEntry.
  destruct root as [| | |b|r]; try discriminate;
    destruct args as [| | |b'|a]; try discriminate; rewrite ?Hn;
    reflexivity.
Qed.

Lemma getChildrenTree_needs_a_callback_witness :
  treeEntry (Given (RootDoc docA)) (Given no_call_args) Undefined
  = inl NoCallback.
Proof.
  apply (getChildrenTree_needs_a_callback (Given (RootDoc docA))
           (Given no_call_args) Undefined); reflexivity.
Defined.


Lemma hasOwn_set_same {V} k (c : V) ob : hasOwn k (obj_set k c ob) = true.
Proof. unfold hasOwn. now rewrite obj_get_set_same. Qed.

Lemma hasOwn_set_other {V} k k' (c : V) ob :
  k' <> k -> hasOwn k' (obj_set k c ob) = hasOwn k' ob.
Proof. intros H. unfold hasOwn. now rewrite obj_get_set_other. Qed.





(** X22.  The [fields] that [getChildrenTree] hands to [find], when the
    caller gives any, keep what the caller wrote.  A string is handed on
    with nothing, [ ancestry], [ parent] or [ ancestry parent] appended, and
    with nothing appended as soon as it holds both words anywhere, also
    inside another name or behind a [-].  An object keeps every entry with
    its value, also an entry for [ancestry] or [parent], gets no other new
    key than these two, and a key that is added has the value 1.  Completing
    what was completed changes nothing. *)
Theorem treeFields_keeps_the_callers_fields (p : projection) :
  projection_truthy p = true ->
  exists p',
    treeFields (Some p) = Some p'
    /\ treeFields (Some p') = Some p'
    /\ match p, p' with
       | FieldNames s, FieldNames s' =>
           (exists added,
               s' = s ++ added
               /\ In added [""; " ancestry"; " parent"; " ancestry parent"])
           /\ (Js.includes "ancestry" s = true ->
               Js.includes "parent" s = true -> s' = s)
       | FieldMap m, FieldMap m' =>
           (forall k, hasOwn k m = true -> obj_get k m' = obj_get k m)
           /\ (forall k, hasOwn k m = false ->
                         obj_get k m'
                         = if (k =? "ancestry") || (k =? "parent")
                           then Some 1%Z else None)
       | _, _ => False
       end.
Proof.
  intros Ht. unfold treeFields. rewrite Ht. destruct p as [s|m].
  - set (s1 := if Js.includes "ancestry" s then s else s ++ " ancestry").
    set (s2 := if Js.includes "parent" s1 then s1 else s1 ++ " parent").
    assert (H1 : Js.includes "ancestry" s1 = true).
    { unfold s1. destruct (Js.includes "ancestry" s) eqn:E; [exact E|].
      apply includes_app_r. reflexivity. }
    assert (H2 : Js.includes "parent" s2 = true).
    { unfold s2. destruct (Js.includes "parent" s1) eqn:E; [exact E|].
      apply includes_app_r. reflexivity. }
    assert (H3 : Js.includes "ancestry" s2 = true).
    { unfold s2. destruct (Js.includes "parent" s1); [exact H1|].
      now apply includes_app_l. }
    assert (H4 : exists added,
               s2 = s ++ added
               /\ In added [""; " ancestry"; " parent"; " ancestry parent"]).
    { unfold s2, s1.
      destruct (Js.includes "ancestry" s);
        destruct (Js.includes "parent" _).
      - exists "". rewrite str_app_empty. simpl. tauto.
      - exists " parent". simpl. tauto.
      - exists " ancestry". simpl. tauto.
      - exists " ancestry parent". rewrite str_app_assoc. simpl. tauto. }
    assert (H5 : projection_truthy (FieldNames s2) = true).
    { destruct H4 as [added [-> _]]. simpl in *.
      destruct s; [discriminate | reflexivity]. }
    exists (FieldNames s2). repeat split; try assumption.
    + rewrite H5. cbv zeta. now rewrite H3, H2.
    + intros Ea Ep. unfold s2, s1. now rewrite Ea, Ep.
  - set (m1 := if hasOwn "ancestry" m then m else obj_set "ancestry" 1%Z m).
    set (m2 := if hasOwn "parent" m1 then m1 else obj_set "parent" 1%Z m1).
    assert (H1 : hasOwn "ancestry" m1 = true).
    { unfold m1. destruct (hasOwn "ancestry" m) eqn:E; [exact E|].
      apply hasOwn_set_same. }
    assert (H2 : hasOwn "parent" m2 = true).
    { unfold m2. destruct (hasOwn "parent" m1) eqn:E; [exact E|].
      apply hasOwn_set_same. }
    assert (H3 : hasOwn "ancestry" m2 = true).
    { unfold m2. destruct (hasOwn "parent" m1); [exact H1|].
      rewrite hasOwn_set_other; [exact H1 | discriminate]. }
    exists (FieldMap m2). repeat split.
    + simpl. cbv zeta. now rewrite H3, H2.
    + intros k Hk. unfold m2, m1.
      destruct (hasOwn "ancestry" m) eqn:Ea.
      * destruct (hasOwn "parent" m) eqn:Ep; [reflexivity|].
        apply obj_get_set_other. intros ->. rewrite Hk in Ep. discriminate.
      * assert (Ka : k <> "ancestry")
          by (intros ->; rewrite Hk in Ea; discriminate).
        destruct (hasOwn "parent" (obj_set "ancestry" 1%Z m)) eqn:Ep.
        -- now apply obj_get_set_other.
        -- rewrite obj_get_set_other.
           ++ now apply obj_get_set_other.
           ++ intros ->. rewrite hasOwn_set_other in Ep by discriminate.
              rewrite Hk in Ep. discriminate.
    + intros k Hk.
      assert (Hm : obj_get k m = None)
        by (unfold hasOwn in Hk; destruct (obj_get k m); [discriminate|reflexivity]).
      unfold m2, m1.
      destruct (k =? "ancestry") eqn:Ka; simpl.
      * apply String.eqb_eq in Ka. subst k. rewrite Hk.
        destruct (hasOwn "parent" (obj_set "ancestry" 1%Z m)).
        -- apply obj_get_set_same.
        -- rewrite obj_get_set_other by discriminate. apply obj_get_set_same.
      * apply String.eqb_neq in Ka.
        destruct (k =? "parent") eqn:Kp.
        -- apply String.eqb_eq in Kp. subst k.
           destruct (hasOwn "ancestry" m) eqn:Ea.
           ++ rewrite Hk. apply obj_get_set_same.
           ++ rewrite hasOwn_set_other, Hk by discriminate.
              apply obj_get_set_same.
        -- apply String.eqb_neq in Kp.
           destruct (hasOwn "ancestry" m);
             destruct (hasOwn "parent" _);
             rewrite ?obj_get_set_other by assumption; exact Hm.
Qed.

Lemma treeFields_keeps_the_callers_fields_witness :
  exists p',
    treeFields (Some (FieldNames "name grandparent")) = Some p'
    /\ treeFields (Some p') = Some p'
    /\ match FieldNames "name grandparent", p' with
       | FieldNames s, FieldNames s' =>
           (exists added,
               s' = s ++ added
               /\ In added [""; " ancestry"; " parent"; " ancestry parent"])
           /\ (Js.includes "ancestry" s = true ->
               Js.includes "parent" s = true -> s' = s)
       | FieldMap m, FieldMap m' =>
           (forall k, hasOwn k m = true -> obj_get k m' = obj_get k m)
           /\ (forall k, hasOwn k m = false ->
                         obj_get k m'
                         = if (k =? "ancestry") || (k =? "parent")
                           then Some 1%Z else None)
       | _, _ => False
       end.
Proof.
  apply (treeFields_keeps_the_callers_fields (FieldNames "name grandparent")).
  reflexivity.
Defined.
